(** * HTTPie: request construction and response rendering

    A shallow embedding of [httpie/httpie.py]: the item classifier
    [KeyValueType.__call__], and [main] (merging of the items into headers
    and data, content negotiation, the call of [requests.request] and the
    rendering of the response), with the properties of the specification
    that concern them.

    Python 2 [str] values are byte strings: they are [string] here.  A
    [dict] is a [gmap].  Exceptions are the [Raise] results of [result];
    the effects of [main] (writes to the standard streams, the call of the
    HTTP engine, the calls of the formatter) are recorded in a trace that a
    small state-and-exception monad threads through the code. *)

From Stdlib Require Import ZArith Ascii String DecimalString.
From stdpp Require Import gmap strings list.

Local Open Scope Z_scope.
Local Open Scope string_scope.

(** ** Exceptions and results *)

Inductive exception : Type :=
| ArgumentTypeError (message : string)
| ValueError (message : string)
| SystemExit (code : Z)
| KeyError (key : string)
| TransportError (message : string).

Inductive result (A : Type) : Type :=
| Return (a : A)
| Raise (e : exception).

Arguments Return {A} a.
Arguments Raise {A} e.

(** ** Constants of the module *)

Definition SEP_COMMON : string := ":".
Definition SEP_DATA : string := "=".
Definition TYPE_FORM : string :=
  "application/x-www-form-urlencoded; charset=utf-8".
Definition TYPE_JSON : string := "application/json; charset=utf-8".

(** ** Python string primitives *)

(** [string.find(sep)]: the lowest index at which [sep] occurs in [string],
    [-1] when it does not occur. *)
Definition find (string sep : String.string) : Z :=
  match String.index 0 sep string with
  | Some n => Z.of_nat n
  | None => -1
  end.

(** The slice [string[n:]]. *)
Definition slice_from (n : nat) (string : String.string) : String.string :=
  String.substring n (String.length string - n) string.

(** [string.split(sep, 1)]: at most one split, at the first occurrence of
    [sep]; an empty separator is a [ValueError]. *)
Definition split1 (string sep : String.string) : result (list String.string) :=
  if decide (sep = "") then Raise (ValueError "empty separator")
  else match String.index 0 sep string with
       | Some n =>
           Return [String.substring 0 n string;
                   slice_from (n + String.length sep) string]
       | None => Return [string]
       end.

(** The unpacking [key, value = ...] of a list into two variables. *)
Definition unpack2 (l : list string) : result (string * string) :=
  match l with
  | [a; b] => Return (a, b)
  | [] | [_] => Raise (ValueError "need more than 1 value to unpack")
  | _ => Raise (ValueError "too many values to unpack")
  end.

(** [min(d.keys())] on a dictionary with integer keys ([None] stands for the
    [ValueError] of [min] on an empty sequence). *)
Definition min_key (d : gmap Z string) : option Z :=
  match (map_to_list d).*1 with
  | [] => None
  | k :: ks => Some (foldr Z.min k ks)
  end.

(** The double quote, as a string. *)
Definition dquote : string := String (ascii_of_nat 34) EmptyString.

(** The one-character string made of [c]. *)
Definition chr (c : ascii) : string := String c EmptyString.

(** ** The item classifier *)

Record KeyValue : Type := mkKeyValue {
  key : string;
  value : string;
  sep : string
}.

Module KeyValueType.

Record t : Type := new { separators : list string }.

(** The dictionary [found]: each separator that occurs in [string], under
    the index of its first occurrence; a later separator of the list
    replaces an earlier one stored under the same index. *)
Definition found (self : t) (string : String.string) : gmap Z String.string :=
  foldl (fun d sep =>
           if decide (find string sep ≠ -1)
           then <[find string sep := sep]> d
           else d)
        ∅ (separators self).

Definition __call__ (self : t) (string : String.string) : result KeyValue :=
  let found := found self string in
  if decide (found = ∅) then
    Raise (ArgumentTypeError
             (dquote +:+ string +:+ dquote +:+ " is not a valid value"))
  else
    match min_key found ≫= (found !!.) with
    | None => Raise (ValueError "min() arg is an empty sequence")
    | Some sep =>
        match split1 string sep with
        | Raise e => Raise e
        | Return parts =>
            match unpack2 parts with
            | Raise e => Raise e
            | Return (key, value) => Return (mkKeyValue key value sep)
            end
        end
    end.

End KeyValueType.

(** The classifier of the positional [items] and the one of [--auth] and
    [--proxy]. *)
Definition items_type : KeyValueType.t :=
  KeyValueType.new [SEP_COMMON; SEP_DATA].
Definition common_type : KeyValueType.t :=
  KeyValueType.new [SEP_COMMON].

(** ** More string primitives *)

(** [c.lower()] on one byte: the ASCII capitals are moved to the small
    letters, the other bytes are kept. *)
Definition lower_ascii (c : ascii) : ascii :=
  let n := nat_of_ascii c in
  if ((65 <=? n)%nat && (n <=? 90)%nat)%bool then ascii_of_nat (n + 32) else c.

Fixpoint lower (s : string) : string :=
  match s with
  | EmptyString => EmptyString
  | String c s' => String (lower_ascii c) (lower s')
  end.

(** [sub in string]. *)
Definition contains_str (sub string : String.string) : bool :=
  bool_decide (find string sub ≠ -1).

(** [sep.join(l)]. *)
Fixpoint join (sep : string) (l : list string) : string :=
  match l with
  | [] => ""
  | [a] => a
  | a :: l' => a +:+ sep +:+ join sep l'
  end.

(** [sep.join(s)] on a string [s], which is iterated by characters. *)
Definition join_chars (sep s : string) : string :=
  join sep (chr <$> list_ascii_of_string s).

(** [str(n)] on an integer. *)
Definition str_of_int (n : Z) : string :=
  NilZero.string_of_int (Z.to_int n).

Fixpoint lstrip (s : string) : string :=
  match s with
  | EmptyString => EmptyString
  | String c s' => if Ascii.is_space c then lstrip s' else s
  end.

(** [s.strip()]. *)
Definition strip (s : string) : string :=
  String.rev (lstrip (String.rev (lstrip s))).

(** [os.path.basename(path)]: what follows the last slash. *)
Fixpoint basename_go (cur path : string) : string :=
  match path with
  | EmptyString => String.rev cur
  | String c path' =>
      if decide (c = "/"%char) then basename_go "" path'
      else basename_go (String c cur) path'
  end.
Definition basename (path : string) : string := basename_go "" path.

(** ** The header map *)

(** Modelled from the spec: [requests.structures.CaseInsensitiveDict], the
    type of the request headers and of the response headers, is not among
    the sources.  Section 3 of the specification gives the Header Map as an
    ordered map whose keys are compared without regard to case, that keeps
    the casing of the first insertion of a key, and in which a later
    insertion under an equivalent key overwrites the earlier value. *)
Module CaseInsensitiveDict.

Abbreviation t := (list (string * string)).

Definition empty : t := [].

(** Modelled from the spec: [d[key] = value] of the Header Map, which
    overwrites the value of an equivalent key and keeps its first casing, and
    adds the entry at the end when there is none. *)
Fixpoint __setitem__ (d : t) (key value : string) : t :=
  match d with
  | [] => [(key, value)]
  | (k, v) :: d' =>
      if decide (lower k = lower key) then (k, value) :: d'
      else (k, v) :: __setitem__ d' key value
  end.

(** Modelled from the spec: [d[key]] of the Header Map, with keys compared
    without regard to case; [None] when there is no such key. *)
Fixpoint __getitem__ (d : t) (key : string) : option string :=
  match d with
  | [] => None
  | (k, v) :: d' =>
      if decide (lower k = lower key) then Some v else __getitem__ d' key
  end.

(** Modelled from the spec: [key in d] of the Header Map. *)
Definition __contains__ (d : t) (key : string) : bool :=
  bool_decide (is_Some (__getitem__ d key)).

(** The entries stored under a key equivalent to [key]. *)
Definition entries (d : t) (key : string) : list (string * string) :=
  filter (λ kv, lower kv.1 = lower key) d.

End CaseInsensitiveDict.

(** ** The request body *)

(** The variable [data] of [main] holds a dictionary (the data items) or a
    string (the piped input, or the JSON text). *)
Inductive data_t : Type :=
| DataDict (d : gmap string string)
| DataStr (s : string).

(** Truth value of [data] in a condition: a non-empty dictionary, a
    non-empty string. *)
Definition truthy (data : data_t) : bool :=
  match data with
  | DataDict d => bool_decide (d ≠ ∅)
  | DataStr s => bool_decide (s ≠ "")
  end.

(** ** Parsed arguments, requests and responses *)

Inductive prettify_t : Type :=
| PrettifyTrue
| PrettifyFalse
| PRETTIFY_STDOUT_TTY_ONLY.

#[global] Instance prettify_eq_dec : EqDecision prettify_t.
Proof. solve_decision. Defined.

(** A file opened by [argparse.FileType()]. *)
Record File : Type := mkFile { file_name : string; file_content : string }.

Module Namespace.
(** The attributes of the result of [parser.parse_args]; [timeout] keeps
    the decimal text of the number. *)
Record t : Type := new {
  json : bool;
  form : bool;
  traceback : bool;
  prettify : prettify_t;
  print_body : bool;
  print_headers : bool;
  style : string;
  auth : option KeyValue;
  verify : option string;
  proxy : list KeyValue;
  allow_redirects : bool;
  file : list File;
  timeout : option string;
  method : string;
  url : string;
  items : list KeyValue
}.
End Namespace.

Inductive verify_t : Type :=
| VerifyTrue
| VerifyAs (v : option string).

Module Request.
(** The keyword arguments of [requests.request]. *)
Record t : Type := new {
  method : string;
  url : string;
  headers : CaseInsensitiveDict.t;
  data : data_t;
  verify : verify_t;
  timeout : option string;
  auth : option (string * string);
  proxies : gmap string string;
  files : gmap string File;
  allow_redirects : bool
}.
End Request.

Module Response.
(** What [main] reads of a response: [encoding], [content], [headers],
    and the [version], [status], [reason] and [msg] of
    [raw._original_response]. *)
Record t : Type := new {
  encoding : option string;
  content : string;
  headers : CaseInsensitiveDict.t;
  version : Z;
  status : Z;
  reason : string;
  msg : string
}.
End Response.

(** ** Collaborators *)

(** What a call of [requests.request] does: it returns a response, or it is
    interrupted ([KeyboardInterrupt], [SystemExit]), or it raises another
    exception, of which [main] reads the [message]. *)
Inductive outcome : Type :=
| Responds (response : Response.t)
| Interrupted
| Fails (message : string).

(** The HTTP engine, [requests.request]. *)
Class Transport : Type := requests_request : Request.t → outcome.

(** The formatter [pretty.PrettyHttp(style)], with its two operations
    [headers(text)] and [body(text, content_type)]. *)
Class Formatter : Type := {
  PrettyHttp_headers : string → string → string;
  PrettyHttp_body : string → string → string → string
}.

(** [text.decode(encoding)] and [text.encode('utf-8')], on texts that the
    codec accepts: the [UnicodeDecodeError] and the [LookupError] that Python
    raises on the other texts and on unknown encodings are outside this
    model, which describes the rendering of the responses that decode. *)
Class Codecs : Type := {
  decode : string → string → string;
  encode_utf8 : string → string
}.

(** [parser.parse_args]: the parsed arguments, or the message of the usage
    error that [argparse] reports.  The exit of [argparse] with status 0
    after [--help] is outside this model. *)
Class ArgumentParser : Type := parse_args : list string → Namespace.t + string.

(** [json.encoder.encode_basestring_ascii]: the JSON text, quotes included,
    of one string that the encoder accepts. *)
Class JSONEncoder : Type := encode_basestring_ascii : string → string.

(** The order in which a Python 2 dictionary hands out its entries
    ([iteritems]): the one of its hash table.  It is left open here: it is
    some enumeration of the entries, each of them once. *)
Class DictOrder : Type := {
  iteritems : gmap string string → list (string * string);
  iteritems_entries : ∀ d, iteritems d ≡ₚ map_to_list d
}.

(** ** Effects *)

Inductive event : Type :=
| ParserError (message : string)
| StderrWrite (text : string)
| StdoutWrite (text : string)
| RequestsRequest (request : Request.t)
| PrettyHeaders (style text : string)
| PrettyBody (style text content_type : string).

(** A computation reads the trace of the events so far and returns a value
    or an exception, with the trace extended by its own events. *)
Definition M (A : Type) : Type := list event → result A * list event.

Definition ret {A} (a : A) : M A := λ tr, (Return a, tr).
Definition raise {A} (e : exception) : M A := λ tr, (Raise e, tr).
Definition bind {A B} (m : M A) (f : A → M B) : M B :=
  λ tr, match m tr with
        | (Return a, tr') => f a tr'
        | (Raise e, tr') => (Raise e, tr')
        end.
Definition emit (e : event) : M unit := λ tr, (Return tt, (tr ++ [e])%list).

Notation "x <- m ;; k" := (bind m (λ x, k))
  (at level 100, m at level 99, k at level 200, right associativity).
Notation "m ;; k" := (bind m (λ _, k))
  (at level 100, k at level 200, right associativity).

Definition newline : string := String (ascii_of_nat 10) EmptyString.

Definition stdout_write (text : string) : M unit := emit (StdoutWrite text).
Definition stderr_write (text : string) : M unit := emit (StderrWrite text).

(** [sys.exit(code)] *)
Definition sys_exit {A} (code : Z) : M A := raise (SystemExit code).

(** [parser.error(message)]: the usage and the message go to the standard
    error, and the program exits with status 2. *)
Definition parser_error {A} (message : string) : M A :=
  emit (ParserError message) ;; sys_exit 2.

(** The calls of the formatter. *)
Definition prettify_headers `{Formatter} (style text : string) : M string :=
  emit (PrettyHeaders style text) ;; ret (PrettyHttp_headers style text).
Definition prettify_body `{Formatter} (style text content_type : string) : M string :=
  emit (PrettyBody style text content_type) ;;
  ret (PrettyHttp_body style text content_type).

(** The number of calls of [prettify.body] and of [requests.request] in a
    trace. *)
Definition is_PrettyBody (e : event) : bool :=
  match e with PrettyBody _ _ _ => true | _ => false end.
Definition is_RequestsRequest (e : event) : bool :=
  match e with RequestsRequest _ => true | _ => false end.
Definition body_calls (tr : list event) : nat :=
  List.length (filter (λ e, is_PrettyBody e = true) tr).
Definition transport_calls (tr : list event) : nat :=
  List.length (filter (λ e, is_RequestsRequest e = true) tr).

Definition MIXED : string :=
  "Request body (stdin) and request data (key=value) cannot be mixed.".

(** ** The program *)

Section Main.

Context `{ArgumentParser} `{JSONEncoder} `{DictOrder} `{Transport}
  `{Formatter} `{Codecs}.

(** [httpie.__version__] *)
Variable version : string.

Definition DEFAULT_UA : string := "HTTPie/" +:+ version.

(** [json.dumps(data)]: an object with one member per entry of the
    dictionary, in the order of iteration of the dictionary; a string
    when [data] is one. *)
Definition json_dumps (data : data_t) : string :=
  match data with
  | DataDict d =>
      "{" +:+ join ", " ((λ kv, encode_basestring_ascii kv.1 +:+ ": "
                                 +:+ encode_basestring_ascii kv.2)
                           <$> iteritems d) +:+ "}"
  | DataStr s => encode_basestring_ascii s
  end.

(** The loop over [args.items]: an item with the separator [SEP_COMMON]
    goes to the headers, another one to the data, which is a usage error
    when the standard input is not a terminal. *)
Fixpoint merge_items (stdin_isatty : bool) (items : list KeyValue)
    (headers : CaseInsensitiveDict.t) (data : gmap string string)
    : M (CaseInsensitiveDict.t * gmap string string) :=
  match items with
  | [] => ret (headers, data)
  | item :: items' =>
      if decide (sep item = SEP_COMMON) then
        merge_items stdin_isatty items'
          (CaseInsensitiveDict.__setitem__ headers (key item) (value item))
          data
      else
        (if negb stdin_isatty then parser_error MIXED else ret tt) ;;
        merge_items stdin_isatty items' headers
          (<[key item := value item]> data)
  end.

(** The block [# JSON/Form content type.] *)
Definition content_type (args : Namespace.t) (stdin_isatty : bool)
    (headers : CaseInsensitiveDict.t) (data : data_t)
    : CaseInsensitiveDict.t * data_t :=
  if Namespace.json args || (negb (Namespace.form args) && truthy data) then
    let data := if stdin_isatty then DataStr (json_dumps data) else data in
    if negb (CaseInsensitiveDict.__contains__ headers "Content-Type")
       && (truthy data || Namespace.json args)
    then (CaseInsensitiveDict.__setitem__ headers "Content-Type" TYPE_JSON, data)
    else (headers, data)
  else if negb (CaseInsensitiveDict.__contains__ headers "Content-Type") then
    (CaseInsensitiveDict.__setitem__ headers "Content-Type" TYPE_FORM, data)
  else (headers, data).

(** The headers and the data of the request: from the seeding of the
    headers to the content type. *)
Definition assemble (args : Namespace.t) (stdin : string)
    (stdin_isatty : bool) : M (CaseInsensitiveDict.t * data_t) :=
  let headers :=
    CaseInsensitiveDict.__setitem__ CaseInsensitiveDict.empty
      "User-Agent" DEFAULT_UA in
  merged <- merge_items stdin_isatty (Namespace.items args) headers ∅ ;;
  let '(headers, data) := merged in
  let data := if negb stdin_isatty then DataStr stdin else DataDict data in
  ret (content_type args stdin_isatty headers data).

(** The keyword arguments of the call of [requests.request]. *)
Definition request_of (args : Namespace.t)
    (headers : CaseInsensitiveDict.t) (data : data_t) : Request.t :=
  {| Request.method := lower (Namespace.method args);
     Request.url :=
       if contains_str "://" (Namespace.url args) then Namespace.url args
       else "http://" +:+ Namespace.url args;
     Request.headers := headers;
     Request.data := data;
     Request.verify :=
       if decide (Namespace.verify args = Some "yes") then VerifyTrue
       else VerifyAs (Namespace.verify args);
     Request.timeout := Namespace.timeout args;
     Request.auth := (λ a, (key a, value a)) <$> Namespace.auth args;
     Request.proxies :=
       foldl (λ d p, <[key p := value p]> d) ∅ (Namespace.proxy args);
     Request.files :=
       foldl (λ d f, <[basename (file_name f) := f]> d) ∅ (Namespace.file args);
     Request.allow_redirects := Namespace.allow_redirects args |}.

(** The block [# Fire the request.] *)
Definition fire (args : Namespace.t)
    (headers : CaseInsensitiveDict.t) (data : data_t) : M Response.t :=
  let request := request_of args headers data in
  emit (RequestsRequest request) ;;
  match requests_request request with
  | Responds response => ret response
  | Interrupted => stderr_write newline ;; sys_exit 1
  | Fails message =>
      if Namespace.traceback args then raise (TransportError message)
      else stderr_write (message +:+ newline) ;; sys_exit 1
  end.

Definition do_prettify (args : Namespace.t) (stdout_isatty : bool) : bool :=
  match Namespace.prettify args with
  | PrettifyTrue => true
  | PrettifyFalse => false
  | PRETTIFY_STDOUT_TTY_ONLY => stdout_isatty
  end.

(** [response.encoding or 'ISO-8859-1'] *)
Definition encoding_of (response : Response.t) : string :=
  match Response.encoding response with
  | Some e => if decide (e = "") then "ISO-8859-1" else e
  | None => "ISO-8859-1"
  end.

(** The decoded body: [response.content.decode(encoding)], the empty text
    when the content is empty. *)
Definition body_of (response : Response.t) : string :=
  if decide (Response.content response = "") then ""
  else decode (encoding_of response) (Response.content response).

(** The block [# Display the response.], to the end of [main]. *)
Definition display (args : Namespace.t) (do_prettify : bool)
    (response : Response.t) : M unit :=
  let encoding := encoding_of response in
  let status_line :=
    "HTTP/" +:+ join_chars "." (str_of_int (Response.version response))
      +:+ " " +:+ str_of_int (Response.status response)
      +:+ " " +:+ Response.reason response in
  let headers := decode encoding (Response.msg response) in
  let body := body_of response in
  rendered <-
    (if do_prettify then
       head <-
         (if Namespace.print_headers args then
            status_line <- prettify_headers (Namespace.style args) status_line ;;
            headers <- prettify_headers (Namespace.style args) headers ;;
            ret (strip status_line, headers)
          else ret (status_line, headers)) ;;
       let '(status_line, headers) := head in
       body <-
         (if Namespace.print_body args
             && CaseInsensitiveDict.__contains__
                  (Response.headers response) "content-type"
          then
            match CaseInsensitiveDict.__getitem__
                    (Response.headers response) "content-type" with
            | Some content_type =>
                prettify_body (Namespace.style args) body content_type
            | None => raise (KeyError "content-type")
            end
          else ret body) ;;
       ret (status_line, headers, body)
     else ret (status_line, headers, body)) ;;
  let '(status_line, headers, body) := rendered in
  (if Namespace.print_headers args then
     stdout_write status_line ;;
     stdout_write newline ;;
     stdout_write (encode_utf8 headers) ;;
     stdout_write (newline +:+ newline)
   else ret tt) ;;
  (if Namespace.print_body args then
     stdout_write (encode_utf8 body) ;;
     stdout_write newline
   else ret tt).

Definition main (argv : list string) (stdin : string)
    (stdin_isatty stdout_isatty : bool) : M unit :=
  args <- (match parse_args argv with
           | inl args => ret args
           | inr message => parser_error message
           end) ;;
  let do_prettify := do_prettify args stdout_isatty in
  assembled <- assemble args stdin stdin_isatty ;;
  let '(headers, data) := assembled in
  response <- fire args headers data ;;
  display args do_prettify response.

End Main.

(** ** Vocabulary of the properties *)

(** The classifier whose separators are the characters [cs]. *)
Definition classifier (cs : list ascii) : KeyValueType.t :=
  KeyValueType.new (chr <$> cs).

(** [p] is the earliest position of [s] that holds one of [cs], and holds
    [c]. *)
Definition earliest (cs : list ascii) (s : string) (p : nat) (c : ascii) : Prop :=
  String.get p s = Some c ∧ c ∈ cs
  ∧ ∀ q c', (q < p)%nat → String.get q s = Some c' → c' ∉ cs.

(** Some position of [s] holds one of [cs]. *)
Definition has_separator (cs : list ascii) (s : string) : Prop :=
  ∃ q c, String.get q s = Some c ∧ c ∈ cs.

(** No position of [s] holds one of [cs]. *)
Definition no_separator (cs : list ascii) (s : string) : Prop :=
  ∀ q c, String.get q s = Some c → c ∉ cs.

Definition invalid_value (s : string) : exception :=
  ArgumentTypeError (dquote +:+ s +:+ dquote +:+ " is not a valid value").

(** The headers and the data that the loop of [main] reaches on [items],
    when it runs to its end. *)
Definition headers_of (items : list KeyValue)
    (headers : CaseInsensitiveDict.t) : CaseInsensitiveDict.t :=
  foldl (λ h item,
           if decide (sep item = SEP_COMMON)
           then CaseInsensitiveDict.__setitem__ h (key item) (value item)
           else h)
        headers items.

Definition data_of (items : list KeyValue)
    (data : gmap string string) : gmap string string :=
  foldl (λ d item,
           if decide (sep item = SEP_COMMON) then d
           else <[key item := value item]> d)
        data items.

(** The header items whose key is [name], whatever the case of the
    letters, and the value of the last of them. *)
Definition named (name : string) (items : list KeyValue) : list KeyValue :=
  filter (λ item, sep item = SEP_COMMON ∧ lower (key item) = lower name) items.

Definition supplied (name : string) (items : list KeyValue) : option string :=
  value <$> last (named name items).

(** The headers of [main] before the loop: the default [User-Agent]. *)
Definition seed (version : string) : CaseInsensitiveDict.t :=
  CaseInsensitiveDict.__setitem__ CaseInsensitiveDict.empty
    "User-Agent" (DEFAULT_UA version).

(** The loop of [main] runs to its end: the standard input is a terminal,
    or every item is a header item. *)
Definition reaches_assembly (args : Namespace.t) (stdin_isatty : bool) : Prop :=
  stdin_isatty = true ∨ ∀ item, item ∈ Namespace.items args → sep item = SEP_COMMON.

(** The requests handed to [requests.request] in a trace. *)
Definition sent (tr : list event) : list Request.t :=
  omap (λ e, match e with RequestsRequest r => Some r | _ => None end) tr.

(** The calls of [prettify.body] in a trace. *)
Definition rendered_bodies (tr : list event) : list event :=
  filter (λ e, is_PrettyBody e = true) tr.

(** The texts written to the standard output and to the standard error in
    a trace, in the order of the writes. *)
Definition stdout_writes (tr : list event) : list string :=
  omap (λ e, match e with StdoutWrite text => Some text | _ => None end) tr.

Definition stderr_writes (tr : list event) : list string :=
  omap (λ e, match e with StderrWrite text => Some text | _ => None end) tr.

(** The calls of the formatter in a trace, of either operation. *)
Definition is_formatter_call (e : event) : bool :=
  match e with
  | PrettyHeaders _ _ | PrettyBody _ _ _ => true
  | _ => false
  end.

Definition formatter_calls (tr : list event) : list event :=
  filter (λ e, is_formatter_call e = true) tr.

(** The data items whose key is [k]. *)
Definition data_named (k : string) (items : list KeyValue) : list KeyValue :=
  filter (λ item, sep item ≠ SEP_COMMON ∧ key item = k) items.




(** The text of the members of a JSON object, for the pairs of [l] in
    their order: each key and each value encoded, a colon and a space
    between them, a comma and a space between two members. *)
Fixpoint json_members `{JSONEncoder} (l : list (string * string)) : string :=
  match l with
  | [] => ""
  | (k, v) :: l' =>
      let member :=
        encode_basestring_ascii k +:+ ": " +:+ encode_basestring_ascii v in
      match l' with
      | [] => member
      | _ :: _ => member +:+ ", " +:+ json_members l'
      end
  end.

(** The text of the JSON object with these members. *)
Definition json_object_text `{JSONEncoder} (l : list (string * string)) : string :=
  "{" +:+ json_members l +:+ "}".

(** ** Collaborators for the examples *)

(** The arguments that [argparse] gives when no option is present. *)
Definition defaults (json form : bool) (prettify : prettify_t)
    (method url : string) (items : list KeyValue) : Namespace.t :=
  {| Namespace.json := json;
     Namespace.form := form;
     Namespace.traceback := false;
     Namespace.prettify := prettify;
     Namespace.print_body := true;
     Namespace.print_headers := true;
     Namespace.style := "solarized";
     Namespace.auth := None;
     Namespace.verify := None;
     Namespace.proxy := [];
     Namespace.allow_redirects := false;
     Namespace.file := [];
     Namespace.timeout := None;
     Namespace.method := method;
     Namespace.url := url;
     Namespace.items := items |}.

(** The conversion of the positional [items] by their [type]. *)
Fixpoint classify (raw : list string) : list KeyValue + string :=
  match raw with
  | [] => inl []
  | s :: raw' =>
      match KeyValueType.__call__ items_type s with
      | Return item =>
          match classify raw' with
          | inl items => inl (item :: items)
          | inr message => inr message
          end
      | Raise (ArgumentTypeError message) => inr ("argument items: " +:+ message)
      | Raise _ => inr "argument items: invalid value"
      end
  end.

(** A parser of the command lines made of options among [--json], [--form],
    [--pretty] and [--ugly] (or their short forms), then the method, the URL
    and the items. *)
Fixpoint cli_go (argv : list string) (json form : bool)
    (prettify : prettify_t) : Namespace.t + string :=
  match argv with
  | a :: argv' =>
      if decide (a ∈ ["--json"; "-j"]) then
        if form then inr "argument --json/-j: not allowed with argument --form/-f"
        else cli_go argv' true form prettify
      else if decide (a ∈ ["--form"; "-f"]) then
        if json then inr "argument --form/-f: not allowed with argument --json/-j"
        else cli_go argv' json true prettify
      else if decide (a ∈ ["--pretty"; "-p"]) then
        if decide (prettify = PrettifyFalse)
        then inr "argument --pretty/-p: not allowed with argument --ugly/-u"
        else cli_go argv' json form PrettifyTrue
      else if decide (a ∈ ["--ugly"; "-u"]) then
        if decide (prettify = PrettifyTrue)
        then inr "argument --ugly/-u: not allowed with argument --pretty/-p"
        else cli_go argv' json form PrettifyFalse
      else
        match argv' with
        | url :: raw =>
            match classify raw with
            | inl items => inl (defaults json form prettify a url items)
            | inr message => inr message
            end
        | [] => inr "too few arguments"
        end
  | [] => inr "too few arguments"
  end.

Definition cli_parser : ArgumentParser :=
  λ argv, cli_go argv false false PRETTIFY_STDOUT_TTY_ONLY.

(** An encoder that puts a string between quotes (the JSON text of a string
    of letters and digits). *)
Definition quote_encoder : JSONEncoder := λ s, dquote +:+ s +:+ dquote.

(** A dictionary order for the examples: the one of [map_to_list]. *)
Definition gmap_order : DictOrder :=
  {| iteritems := map_to_list;
     iteritems_entries := λ d, reflexivity (map_to_list d) |}.

(** An engine that answers every request with the same JSON document. *)
Definition json_response : Response.t :=
  {| Response.encoding := Some "utf-8";
     Response.content := "{}";
     Response.headers := [("Content-Type", "application/json")];
     Response.version := 11;
     Response.status := 200;
     Response.reason := "OK";
     Response.msg := "Content-Type: application/json" |}.

Definition json_transport : Transport := λ _, Responds json_response.

(** Items of the examples. *)
Definition joe : KeyValue := mkKeyValue "name" "joe" "=".
Definition plain : KeyValue := mkKeyValue "content-type" "text/plain" ":".
Definition agent : KeyValue := mkKeyValue "user-agent" "me" ":".

(** A formatter and codecs that leave the text as it is. *)
Definition plain_formatter : Formatter :=
  {| PrettyHttp_headers := λ _ text, text;
     PrettyHttp_body := λ _ text _, text |}.

Definition plain_codecs : Codecs :=
  {| decode := λ _ text, text; encode_utf8 := λ text, text |}.


(** An engine that fails with a message, and one that is interrupted. *)
Definition failing_transport : Transport := λ _, Fails "timed out".
Definition interrupted_transport : Transport := λ _, Interrupted.

(** The arguments of [--traceback POST example.org name=joe], and a parser
    that returns them. *)
Definition traceback_args : Namespace.t :=
  {| Namespace.json := false;
     Namespace.form := false;
     Namespace.traceback := true;
     Namespace.prettify := PRETTIFY_STDOUT_TTY_ONLY;
     Namespace.print_body := true;
     Namespace.print_headers := true;
     Namespace.style := "solarized";
     Namespace.auth := None;
     Namespace.verify := None;
     Namespace.proxy := [];
     Namespace.allow_redirects := false;
     Namespace.file := [];
     Namespace.timeout := None;
     Namespace.method := "POST";
     Namespace.url := "example.org";
     Namespace.items := [joe] |}.

Definition traceback_parser : ArgumentParser := λ _, inl traceback_args.

(** * Properties *)

(** ** Strings *)

Lemma prefix_chr (c b : ascii) (s : string) :
  String.prefix (chr c) (String b s) = true ↔ c = b.
Proof.
  rewrite String.prefix_correct. unfold chr. simpl.
  destruct s; simpl; split; congruence.
Qed.

Lemma index_chr_Some (c : ascii) (s : string) (n : nat) :
  String.index 0 (chr c) s = Some n ↔
  String.get n s = Some c ∧ ∀ q, (q < n)%nat → String.get q s ≠ Some c.
Proof.
  revert n. induction s as [|b s IH]; intros n.
  - simpl. split; [done|]. intros [? _]. by destruct n.
  - change (String.index 0 (chr c) (String b s))
      with (if String.prefix (chr c) (String b s) then Some 0%nat
            else match String.index 0 (chr c) s with
                 | Some n => Some (S n)
                 | None => None
                 end).
    destruct (String.prefix (chr c) (String b s)) eqn:Hp.
    + apply prefix_chr in Hp as ->. split.
      * intros [= <-]. split; [done|]. lia.
      * intros [Hn Hq]. destruct n as [|n]; [done|].
        exfalso. apply (Hq 0%nat); [lia|done].
    + assert (c ≠ b) as Hne.
      { intros Heq. apply (prefix_chr c b s) in Heq. congruence. }
      destruct n as [|n].
      * split.
        -- destruct (String.index 0 (chr c) s); done.
        -- intros [[= ?] _]. congruence.
      * specialize (IH n). simpl String.get.
        destruct (String.index 0 (chr c) s) as [m|].
        -- split.
           ++ intros [= <-]. destruct IH as [IH _].
              destruct (IH eq_refl) as [Hg Hq]. split; [done|].
              intros [|q] Hlt; simpl; [congruence|]. apply Hq. lia.
           ++ intros [Hg Hq]. f_equal. destruct IH as [_ IH].
              assert (Some m = Some n) as [= ->]; [|done].
              apply IH. split; [done|]. intros q Hlt.
              apply (Hq (S q)). lia.
        -- split; [done|]. intros [Hg Hq]. destruct IH as [_ IH].
           exfalso. assert (@None nat = Some n); [|done].
           apply IH. split; [done|]. intros q Hlt. apply (Hq (S q)). lia.
Qed.

Lemma index_chr_None (c : ascii) (s : string) :
  String.index 0 (chr c) s = None ↔ ∀ q, String.get q s ≠ Some c.
Proof.
  split.
  - induction s as [|b s IH]; intros Hnone q; [by destruct q|].
    change (String.index 0 (chr c) (String b s))
      with (if String.prefix (chr c) (String b s) then Some 0%nat
            else match String.index 0 (chr c) s with
                 | Some n => Some (S n)
                 | None => None
                 end) in Hnone.
    destruct (String.prefix (chr c) (String b s)) eqn:Hp; [done|].
    destruct (String.index 0 (chr c) s) eqn:Hi; [done|].
    destruct q as [|q]; simpl.
    + intros [= ->]. assert (String.prefix (chr c) (String c s) = true).
      { by apply prefix_chr. }
      congruence.
    + by apply IH.
  - intros Hall. destruct (String.index 0 (chr c) s) as [n|] eqn:Hn; [|done].
    apply index_chr_Some in Hn as [Hn _]. by apply Hall in Hn.
Qed.

Lemma find_chr_Some (c : ascii) (s : string) (k : Z) :
  find s (chr c) = k → k ≠ -1 →
  ∃ n, k = Z.of_nat n ∧ String.get n s = Some c
       ∧ ∀ q, (q < n)%nat → String.get q s ≠ Some c.
Proof.
  unfold find. destruct (String.index 0 (chr c) s) as [n|] eqn:Hn; [|congruence].
  intros <- _. exists n. split; [done|]. by apply index_chr_Some.
Qed.

Lemma find_chr_first (c : ascii) (s : string) (n : nat) :
  String.get n s = Some c → (∀ q, (q < n)%nat → String.get q s ≠ Some c) →
  find s (chr c) = Z.of_nat n.
Proof.
  intros Hn Hq. unfold find.
  by rewrite (proj2 (index_chr_Some c s n) (conj Hn Hq)).
Qed.

Lemma find_chr_None (c : ascii) (s : string) :
  find s (chr c) = -1 ↔ ∀ q, String.get q s ≠ Some c.
Proof.
  rewrite <- index_chr_None. unfold find.
  destruct (String.index 0 (chr c) s); split; (done || lia).
Qed.

(** ** The dictionary of the separators found *)

Section Found.

Variable s : string.

Let step (d : gmap Z string) (sep : string) : gmap Z string :=
  if decide (find s sep ≠ -1) then <[find s sep := sep]> d else d.

Lemma found_lookup_inv (seps : list string) (d : gmap Z string) k v :
  foldl step d seps !! k = Some v →
  d !! k = Some v ∨ (v ∈ seps ∧ find s v = k ∧ k ≠ -1).
Proof.
  revert d. induction seps as [|a seps IH]; intros d; simpl; [by left|].
  intros [Hd|(Hin & Hk & Hne)]%IH.
  - unfold step in Hd. case_decide as Ha; [|by left].
    apply lookup_insert_Some in Hd as [[<- <-]|[_ Hd]]; [|by left].
    right. split; [apply list_elem_of_here|done].
  - right. split; [by apply list_elem_of_further|done].
Qed.

Lemma found_lookup_mono (seps : list string) (d : gmap Z string) k :
  is_Some (d !! k) → is_Some (foldl step d seps !! k).
Proof.
  revert d. induction seps as [|a seps IH]; intros d Hd; simpl; [done|].
  apply IH. unfold step. case_decide; [|done].
  rewrite lookup_insert_is_Some. destruct (decide (find s a = k)); auto.
Qed.

Lemma found_lookup_elem (seps : list string) (d : gmap Z string) v :
  v ∈ seps → find s v ≠ -1 → is_Some (foldl step d seps !! find s v).
Proof.
  revert d. induction seps as [|a seps IH]; intros d Hin Hne.
  - by apply not_elem_of_nil in Hin.
  - simpl. apply elem_of_cons in Hin as [<-|Hin]; [|by apply IH].
    apply found_lookup_mono. unfold step. rewrite decide_True by done.
    rewrite lookup_insert_eq. eauto.
Qed.

End Found.

Lemma foldr_min_spec (k : Z) (ks : list Z) :
  foldr Z.min k ks ∈ k :: ks ∧ ∀ x, x ∈ k :: ks → (foldr Z.min k ks ≤ x)%Z.
Proof.
  induction ks as [|a ks [IHin IHle]]; simpl.
  - split; [apply list_elem_of_here|]. intros x ->%list_elem_of_singleton. lia.
  - split.
    + destruct (Z.min_spec a (foldr Z.min k ks)) as [[_ ->]|[_ ->]].
      * apply list_elem_of_further, list_elem_of_here.
      * apply elem_of_cons in IHin as [->|Hin]; [apply list_elem_of_here|].
        by do 2 apply list_elem_of_further.
    + intros x [->|[->|Hx]%elem_of_cons]%elem_of_cons.
      * specialize (IHle k (list_elem_of_here _ _)). lia.
      * lia.
      * specialize (IHle x (list_elem_of_further _ _ _ Hx)). lia.
Qed.

Lemma min_key_spec (d : gmap Z string) :
  d ≠ ∅ →
  ∃ k, min_key d = Some k ∧ is_Some (d !! k)
       ∧ ∀ k', is_Some (d !! k') → (k ≤ k')%Z.
Proof.
  intros Hne. unfold min_key.
  assert (∀ k, k ∈ (map_to_list d).*1 ↔ is_Some (d !! k)) as Hkeys.
  { intros k. rewrite list_elem_of_fmap. split.
    - intros ([k' v] & -> & Hin%elem_of_map_to_list). eauto.
    - intros [v Hv]. exists (k, v). split; [done|].
      by apply elem_of_map_to_list. }
  destruct ((map_to_list d).*1) as [|k ks] eqn:Hl.
  - exfalso. apply Hne, map_to_list_empty_iff.
    by apply fmap_nil_inv in Hl.
  - destruct (foldr_min_spec k ks) as [Hin Hle].
    exists (foldr Z.min k ks). split; [done|]. split.
    + by apply Hkeys.
    + intros k' Hk'. by apply Hle, Hkeys.
Qed.

(** ** The item classifier *)

Lemma has_separator_not_no (cs : list ascii) (s : string) :
  has_separator cs s → ¬ no_separator cs s.
Proof. intros (q & c & Hq & Hc) Hno. by apply (Hno q c). Qed.

Lemma earliest_exists (cs : list ascii) (s : string) :
  has_separator cs s → ∃ p c, earliest cs s p c.
Proof.
  induction s as [|a s IH]; intros (q & c & Hq & Hc).
  - by destruct q.
  - destruct (decide (a ∈ cs)) as [Ha|Ha].
    + exists 0%nat, a. split; [done|]. split; [done|]. lia.
    + destruct IH as (p & c' & Hp & Hc' & Hfirst).
      { destruct q as [|q]; simpl in Hq; [congruence|]. by exists q, c. }
      exists (S p), c'. split; [done|]. split; [done|].
      intros [|q'] c'' Hlt; simpl.
      * by intros [= <-].
      * apply Hfirst. lia.
Qed.

Lemma found_empty_iff (cs : list ascii) (s : string) :
  KeyValueType.found (classifier cs) s = ∅ ↔ no_separator cs s.
Proof.
  unfold KeyValueType.found, classifier; simpl. split.
  - intros Hempty q c Hq Hc.
    destruct (earliest_exists cs s) as (p & c' & Hp & Hc' & Hfirst).
    { by exists q, c. }
    assert (find s (chr c') = Z.of_nat p) as Hfind.
    { apply find_chr_first; [done|]. intros q' Hlt Hq'. by apply (Hfirst q' c'). }
    pose proof (found_lookup_elem s (chr <$> cs) ∅ (chr c')) as Hin.
    rewrite Hempty, lookup_empty in Hin. apply (is_Some_None (A:=string)), Hin.
    + by apply list_elem_of_fmap_2.
    + lia.
  - intros Hno. apply map_empty. intros k.
    destruct (foldl _ ∅ (chr <$> cs) !! k) as [v|] eqn:Hk; [|done].
    apply found_lookup_inv in Hk as [Hk|(Hin & Hfind & Hne)]; [done|].
    apply list_elem_of_fmap in Hin as (c & -> & Hc).
    destruct (find_chr_Some c s k Hfind Hne) as (n & _ & Hn & _).
    by destruct (Hno n c).
Qed.

Lemma found_min (cs : list ascii) (s : string) (p : nat) (c : ascii) :
  earliest cs s p c →
  min_key (KeyValueType.found (classifier cs) s)
    ≫= (KeyValueType.found (classifier cs) s !!.) = Some (chr c).
Proof.
  intros (Hp & Hc & Hfirst).
  assert (find s (chr c) = Z.of_nat p) as Hfind.
  { apply find_chr_first; [done|]. intros q Hlt Hq. by apply (Hfirst q c). }
  set (d := KeyValueType.found (classifier cs) s).
  assert (is_Some (d !! Z.of_nat p)) as Hd.
  { rewrite <- Hfind. apply found_lookup_elem; [by apply list_elem_of_fmap_2|lia]. }
  destruct (min_key_spec d) as (k & -> & [v Hv] & Hmin).
  { intros Hempty. rewrite Hempty, lookup_empty in Hd. by destruct Hd. }
  simpl. rewrite Hv. f_equal.
  pose proof (Hmin _ Hd) as Hle.
  apply found_lookup_inv in Hv as [Hv|(Hin & Hk & Hne)]; [done|].
  apply list_elem_of_fmap in Hin as (c' & -> & Hc').
  destruct (find_chr_Some c' s k Hk Hne) as (n & -> & Hn & _).
  destruct (decide (n < p)%nat) as [Hlt|Hge].
  - by destruct (Hfirst n c' Hlt Hn).
  - assert (n = p) as -> by lia. congruence.
Qed.

Lemma split1_chr (c : ascii) (s : string) (p : nat) :
  String.get p s = Some c → (∀ q, (q < p)%nat → String.get q s ≠ Some c) →
  split1 s (chr c) = Return [String.substring 0 p s; slice_from (S p) s].
Proof.
  intros Hp Hq. unfold split1. rewrite decide_False by done.
  rewrite (proj2 (index_chr_Some c s p) (conj Hp Hq)). simpl.
  by rewrite Nat.add_1_r.
Qed.

(** The classifier splits at the earliest separator. *)
Lemma call_earliest (cs : list ascii) (s : string) (p : nat) (c : ascii) :
  earliest cs s p c →
  KeyValueType.__call__ (classifier cs) s =
    Return (mkKeyValue (String.substring 0 p s) (slice_from (S p) s) (chr c)).
Proof.
  intros Hearly. unfold KeyValueType.__call__. cbv zeta.
  rewrite decide_False.
  - rewrite (found_min cs s p c Hearly).
    destruct Hearly as (Hp & Hc & Hfirst).
    rewrite (split1_chr c s p); [done|done|].
    intros q Hlt Hq. by apply (Hfirst q c).
  - rewrite found_empty_iff. destruct Hearly as (Hp & Hc & _).
    intros Hno. by apply (Hno p c).
Qed.

(** Without a separator in the string the classifier raises. *)
Lemma call_no_separator (cs : list ascii) (s : string) :
  no_separator cs s →
  KeyValueType.__call__ (classifier cs) s = Raise (invalid_value s).
Proof.
  intros Hno. unfold KeyValueType.__call__. cbv zeta.
  by rewrite decide_True by by apply found_empty_iff.
Qed.

Lemma substring_all (s : string) : String.substring 0 (String.length s) s = s.
Proof. induction s; simpl; [done|]. by f_equal. Qed.

Lemma slice_from_S (a : ascii) (s : string) (p : nat) :
  slice_from (S p) (String a s) = slice_from p s.
Proof. done. Qed.

(** The key, the separator and the value make up the string again. *)
Lemma substring_get_slice (s : string) (p : nat) (c : ascii) :
  String.get p s = Some c →
  s = String.substring 0 p s +:+ chr c +:+ slice_from (S p) s.
Proof.
  revert p. induction s as [|a s IH]; intros [|p]; simpl; try done.
  - intros [= ->]. rewrite slice_from_S. unfold slice_from.
    by rewrite Nat.sub_0_r, substring_all.
  - intros Hp. rewrite slice_from_S.
    change (String a s
            = String a (String.substring 0 p s +:+ chr c +:+ slice_from (S p) s)).
    f_equal. by apply IH.
Qed.

Lemma items_type_classifier : items_type = classifier [":"%char; "="%char].
Proof. reflexivity. Qed.

Lemma common_type_classifier : common_type = classifier [":"%char].
Proof. reflexivity. Qed.

Example call_header :
  KeyValueType.__call__ items_type "a:b" = Return (mkKeyValue "a" "b" ":").
Proof. vm_compute. reflexivity. Qed.

Example call_data :
  KeyValueType.__call__ items_type "a=b" = Return (mkKeyValue "a" "b" "=").
Proof. vm_compute. reflexivity. Qed.

Example call_colon_first :
  KeyValueType.__call__ items_type "a:b=c" = Return (mkKeyValue "a" "b=c" ":").
Proof. vm_compute. reflexivity. Qed.

Example call_equals_first :
  KeyValueType.__call__ items_type "a=b:c" = Return (mkKeyValue "a" "b:c" "=").
Proof. vm_compute. reflexivity. Qed.

Example call_neither :
  KeyValueType.__call__ items_type "abc" = Raise (invalid_value "abc").
Proof. vm_compute. reflexivity. Qed.

(** C2. In a string in which a candidate separator occurs, the classifier
    splits at the earliest position [p] that holds one: the separator of the
    token is the character [c] at [p], the key is the text before [p] and
    the value is all the text after [p], later separators included, so that
    the key, the separator and the value make up the string again. *)
Theorem classifier_splits_at_earliest (cs : list ascii) (s : string) :
  has_separator cs s →
  ∃ p c token,
    earliest cs s p c
    ∧ KeyValueType.__call__ (classifier cs) s = Return token
    ∧ sep token = chr c
    ∧ key token = String.substring 0 p s
    ∧ value token = slice_from (S p) s
    ∧ s = key token +:+ sep token +:+ value token.
Proof.
  intros (p & c & Hearly)%earliest_exists. eexists p, c, _.
  split; [done|]. split; [by apply call_earliest|]. simpl.
  repeat split. destruct Hearly as [Hp _]. by apply substring_get_slice.
Qed.

Lemma classifier_splits_at_earliest_witness :
  has_separator [":"%char; "="%char] "a:b=c"
  ∧ ∃ p c token,
      earliest [":"%char; "="%char] "a:b=c" p c
      ∧ KeyValueType.__call__ (classifier [":"%char; "="%char]) "a:b=c"
        = Return token
      ∧ sep token = chr c
      ∧ key token = String.substring 0 p "a:b=c"
      ∧ value token = slice_from (S p) "a:b=c"
      ∧ "a:b=c" = key token +:+ sep token +:+ value token.
Proof.
  assert (has_separator [":"%char; "="%char] "a:b=c") as Hsome.
  { exists 3%nat, "="%char. split; [reflexivity|].
    apply list_elem_of_further, list_elem_of_here. }
  split; [exact Hsome|].
  exact (classifier_splits_at_earliest _ _ Hsome).
Defined.

(** C8. The classifier raises the error that carries the string exactly when
    no candidate separator occurs in the string; when one occurs, it returns
    a token. *)
Theorem classifier_invalid_iff_no_separator (cs : list ascii) (s : string) :
  (KeyValueType.__call__ (classifier cs) s = Raise (invalid_value s)
   ↔ no_separator cs s)
  ∧ (has_separator cs s →
     ∃ token, KeyValueType.__call__ (classifier cs) s = Return token).
Proof.
  assert (has_separator cs s →
          ∃ token, KeyValueType.__call__ (classifier cs) s = Return token)
    as Hsome.
  { intros (p & c & Hearly)%earliest_exists. eexists. by apply call_earliest. }
  split; [|done]. split; [|apply call_no_separator].
  intros Hraise q c Hq Hc. destruct Hsome as [token Htoken].
  - by exists q, c.
  - congruence.
Qed.

Lemma classifier_invalid_iff_no_separator_witness :
  KeyValueType.__call__ (classifier [":"%char; "="%char]) "abc"
    = Raise (invalid_value "abc")
  ∧ ∃ token,
      KeyValueType.__call__ (classifier [":"%char; "="%char]) "a=b" = Return token.
Proof.
  split.
  - apply (classifier_invalid_iff_no_separator [":"%char; "="%char] "abc").
    intros q c Hq Hin.
    do 3 (destruct q as [|q]; [injection Hq as <-;
      repeat (apply elem_of_cons in Hin as [Hin|Hin]; [discriminate|]);
      by apply not_elem_of_nil in Hin|]).
    discriminate.
  - apply (classifier_invalid_iff_no_separator [":"%char; "="%char] "a=b").
    exists 1%nat, "="%char. split; [reflexivity|].
    apply list_elem_of_further, list_elem_of_here.
Defined.

(** C10. A string that starts with a candidate separator is accepted: the
    token has the empty key, that separator, and the rest of the string as
    its value. *)
Theorem classifier_empty_key (cs : list ascii) (c : ascii) (rest : string) :
  c ∈ cs →
  KeyValueType.__call__ (classifier cs) (String c rest)
    = Return (mkKeyValue "" rest (chr c)).
Proof.
  intros Hc. rewrite (call_earliest cs (String c rest) 0 c).
  - rewrite slice_from_S. unfold slice_from.
    by rewrite Nat.sub_0_r, substring_all.
  - split; [done|]. split; [done|]. lia.
Qed.

Lemma classifier_empty_key_witness :
  KeyValueType.__call__ items_type "=value" = Return (mkKeyValue "" "value" "=").
Proof.
  apply (classifier_empty_key [":"%char; "="%char] "="%char "value").
  apply list_elem_of_further, list_elem_of_here.
Defined.

(** ** The header map *)

Module CaseInsensitiveDictFacts.
Import CaseInsensitiveDict.

Lemma getitem_setitem (d : t) (k v k' : string) :
  __getitem__ (__setitem__ d k v) k'
  = if decide (lower k = lower k') then Some v else __getitem__ d k'.
Proof.
  induction d as [|[k0 v0] d IH]; simpl; [done|].
  destruct (decide (lower k0 = lower k)) as [Heq|Hne]; simpl.
  - rewrite Heq. by repeat case_decide.
  - rewrite IH. repeat case_decide; (done || congruence).
Qed.

Lemma contains_true (d : t) (k : string) :
  __contains__ d k = true ↔ is_Some (__getitem__ d k).
Proof. unfold __contains__. apply bool_decide_eq_true. Qed.

Lemma contains_false (d : t) (k : string) :
  __contains__ d k = false ↔ __getitem__ d k = None.
Proof.
  unfold __contains__. rewrite bool_decide_eq_false.
  by rewrite eq_None_not_Some.
Qed.

Lemma entries_setitem_ne (d : t) (k v name : string) :
  lower k ≠ lower name →
  entries (__setitem__ d k v) name = entries d name.
Proof.
  intros Hne. unfold entries.
  induction d as [|[k0 v0] d IH]; cbn [__setitem__].
  - by rewrite filter_cons_False.
  - case_decide as Hk0.
    + rewrite !filter_cons. cbn [fst]. case_decide; [congruence|done].
    + rewrite !filter_cons. cbn [fst]. by rewrite IH.
Qed.

Lemma entries_setitem_eq (d : t) (k v name k0 v0 : string) :
  lower k = lower name →
  entries d name = [(k0, v0)] →
  entries (__setitem__ d k v) name = [(k0, v)].
Proof.
  intros Heq. unfold entries.
  induction d as [|[k1 v1] d IH]; cbn [__setitem__]; [done|].
  rewrite filter_cons. cbn [fst].
  destruct (decide (lower k1 = lower k)) as [Hk1|Hk1].
  - rewrite decide_True by congruence. intros [= -> -> Hrest].
    rewrite filter_cons. cbn [fst]. rewrite decide_True by congruence.
    by rewrite Hrest.
  - rewrite decide_False by congruence. intros Hd.
    rewrite filter_cons. cbn [fst]. rewrite decide_False by congruence. auto.
Qed.

Lemma getitem_entries (d : t) (name : string) :
  __getitem__ d name = snd <$> head (entries d name).
Proof.
  unfold entries. induction d as [|[k v] d IH]; [done|].
  cbn [__getitem__]. rewrite filter_cons. cbn [fst].
  by destruct (decide (lower k = lower name)).
Qed.

End CaseInsensitiveDictFacts.

(** ** The loop over the items *)

Lemma supplied_cons (name : string) (item : KeyValue) (items : list KeyValue) :
  supplied name (item :: items)
  = match supplied name items with
    | Some v => Some v
    | None =>
        if decide (sep item = SEP_COMMON ∧ lower (key item) = lower name)
        then Some (value item) else None
    end.
Proof.
  unfold supplied, named. rewrite filter_cons.
  destruct (decide (sep item = SEP_COMMON ∧ lower (key item) = lower name));
    [rewrite last_cons|]; by destruct (last _).
Qed.

Lemma headers_of_cons (item : KeyValue) (items : list KeyValue)
    (headers : CaseInsensitiveDict.t) :
  headers_of (item :: items) headers
  = headers_of items
      (if decide (sep item = SEP_COMMON)
       then CaseInsensitiveDict.__setitem__ headers (key item) (value item)
       else headers).
Proof. reflexivity. Qed.

Lemma data_of_cons (item : KeyValue) (items : list KeyValue)
    (data : gmap string string) :
  data_of (item :: items) data
  = data_of items
      (if decide (sep item = SEP_COMMON) then data
       else <[key item := value item]> data).
Proof. reflexivity. Qed.

Lemma getitem_headers_of (items : list KeyValue)
    (headers : CaseInsensitiveDict.t) (name : string) :
  CaseInsensitiveDict.__getitem__ (headers_of items headers) name
  = match supplied name items with
    | Some v => Some v
    | None => CaseInsensitiveDict.__getitem__ headers name
    end.
Proof.
  revert headers. induction items as [|item items IH]; intros headers; [done|].
  rewrite headers_of_cons, IH, supplied_cons.
  destruct (supplied name items); [done|].
  destruct (decide (sep item = SEP_COMMON)) as [Hsep|Hsep].
  - rewrite CaseInsensitiveDictFacts.getitem_setitem.
    repeat case_decide; (done || tauto).
  - rewrite decide_False by tauto. done.
Qed.

Lemma entries_headers_of (items : list KeyValue)
    (headers : CaseInsensitiveDict.t) (name k0 v0 : string) :
  CaseInsensitiveDict.entries headers name = [(k0, v0)] →
  CaseInsensitiveDict.entries (headers_of items headers) name
  = [(k0, default v0 (supplied name items))].
Proof.
  revert headers v0. induction items as [|item items IH]; intros headers v0 Hh; [done|].
  rewrite headers_of_cons, supplied_cons.
  destruct (decide (sep item = SEP_COMMON)) as [Hsep|Hsep].
  - destruct (decide (lower (key item) = lower name)) as [Hkey|Hkey].
    + rewrite (IH _ (value item)).
      * rewrite decide_True by done. by destruct (supplied name items).
      * by apply CaseInsensitiveDictFacts.entries_setitem_eq with v0.
    + rewrite (IH _ v0).
      * rewrite decide_False by tauto. by destruct (supplied name items).
      * by rewrite CaseInsensitiveDictFacts.entries_setitem_ne.
  - rewrite (IH _ v0 Hh). rewrite decide_False by tauto.
    by destruct (supplied name items).
Qed.

Ltac run :=
  unfold bind, ret, raise, emit, stdout_write, stderr_write, sys_exit,
    parser_error, prettify_headers, prettify_body; simpl.

Lemma merge_items_reaches (stdin_isatty : bool) (items : list KeyValue)
    (headers : CaseInsensitiveDict.t) (data : gmap string string)
    (tr : list event) :
  stdin_isatty = true ∨ (∀ item, item ∈ items → sep item = SEP_COMMON) →
  merge_items stdin_isatty items headers data tr
  = (Return (headers_of items headers, data_of items data), tr).
Proof.
  revert headers data. induction items as [|item items IH]; intros headers data Hok;
    [done|].
  rewrite headers_of_cons, data_of_cons. cbn [merge_items].
  destruct (decide (sep item = SEP_COMMON)) as [Hsep|Hsep].
  - apply IH. destruct Hok as [?|Hall]; [by left|right].
    intros ??. by apply Hall, list_elem_of_further.
  - destruct Hok as [->|Hall].
    + run. apply IH. by left.
    + destruct Hsep. apply Hall, list_elem_of_here.
Qed.

Lemma merge_items_mixed (items : list KeyValue) (item : KeyValue)
    (headers : CaseInsensitiveDict.t) (data : gmap string string)
    (tr : list event) :
  item ∈ items → sep item ≠ SEP_COMMON →
  merge_items false items headers data tr
  = (Raise (SystemExit 2), (tr ++ [ParserError MIXED])%list).
Proof.
  revert headers data. induction items as [|item' items IH]; intros headers data Hin Hsep.
  - by apply not_elem_of_nil in Hin.
  - cbn [merge_items]. destruct (decide (sep item' = SEP_COMMON)) as [Hsep'|Hsep'].
    + apply IH; [|done]. apply elem_of_cons in Hin as [->|Hin]; done.
    + by run.
Qed.

(** ** Traces *)

Lemma sent_app (tr tr' : list event) : sent (tr ++ tr') = (sent tr ++ sent tr')%list.
Proof. apply omap_app. Qed.


Lemma body_calls_rendered (tr : list event) :
  body_calls tr = List.length (rendered_bodies tr).
Proof. reflexivity. Qed.

Section MainFacts.

Context `{ArgumentParser} `{JSONEncoder} `{DictOrder} `{Transport}
  `{Formatter} `{Codecs}.
Variable version : string.

(** The rendering of a response adds its events at the end of the trace. *)
Lemma display_trace (args : Namespace.t) (b : bool) (response : Response.t)
    (tr : list event) :
  ∃ tr', (display args b response tr).2 = (tr ++ tr')%list
         ∧ sent tr' = []
         ∧ rendered_bodies tr'
           = if b && Namespace.print_body args
             then match CaseInsensitiveDict.__getitem__
                          (Response.headers response) "content-type" with
                  | Some content_type =>
                      [PrettyBody (Namespace.style args) (body_of response)
                         content_type]
                  | None => []
                  end
             else [].
Proof.
  unfold display, CaseInsensitiveDict.__contains__.
  destruct (CaseInsensitiveDict.__getitem__ (Response.headers response)
              "content-type") as [content_type|];
    [rewrite bool_decide_eq_true_2 by eauto
    |rewrite bool_decide_eq_false_2 by (by intros [??])];
    destruct b, (Namespace.print_headers args), (Namespace.print_body args);
    run; rewrite <- ?(assoc_L (++));
    first [ by exists []; rewrite app_nil_r
          | eexists; (split; [reflexivity|done]) ].
Qed.

End MainFacts.

Section Assembly.

Context `{ArgumentParser} `{JSONEncoder} `{DictOrder} `{Transport}
  `{Formatter} `{Codecs}.
Variable version : string.

Lemma assemble_reaches (args : Namespace.t) (stdin : string)
    (stdin_isatty : bool) (tr : list event) :
  reaches_assembly args stdin_isatty →
  assemble version args stdin stdin_isatty tr
  = (Return (content_type args stdin_isatty
               (headers_of (Namespace.items args) (seed version))
               (if negb stdin_isatty then DataStr stdin
                else DataDict (data_of (Namespace.items args) ∅))), tr).
Proof.
  intros Hok. unfold assemble, bind.
  by rewrite merge_items_reaches by done.
Qed.

Lemma assemble_mixed (args : Namespace.t) (stdin : string)
    (item : KeyValue) (tr : list event) :
  item ∈ Namespace.items args → sep item ≠ SEP_COMMON →
  assemble version args stdin false tr
  = (Raise (SystemExit 2), (tr ++ [ParserError MIXED])%list).
Proof.
  intros Hin Hsep. unfold assemble, bind.
  by rewrite (merge_items_mixed _ item) by done.
Qed.

(** The engine is called once, with the headers and the data that the
    assembly returns. *)
Lemma main_sent (argv : list string) (args : Namespace.t) (stdin : string)
    (stdin_isatty stdout_isatty : bool)
    (headers : CaseInsensitiveDict.t) (data : data_t) :
  parse_args argv = inl args →
  assemble version args stdin stdin_isatty [] = (Return (headers, data), []) →
  sent (main version argv stdin stdin_isatty stdout_isatty []).2
  = [request_of args headers data].
Proof.
  intros Hparse Hassemble. unfold main, bind at 1. rewrite Hparse.
  unfold ret at 1. unfold bind at 1. rewrite Hassemble.
  unfold bind at 1, fire, bind at 1, emit. simpl.
  destruct (requests_request (request_of args headers data)) as [response| |message].
  - unfold ret at 1.
    destruct (display_trace args (do_prettify args stdout_isatty) response
                [RequestsRequest (request_of args headers data)])
      as (tr' & -> & Hsent & _).
    by rewrite sent_app, Hsent.
  - by run.
  - destruct (Namespace.traceback args); by run.
Qed.

(** ** Content negotiation *)

Lemma json_dumps_not_empty (d : gmap string string) :
  json_dumps (DataDict d) ≠ "".
Proof. done. Qed.

Lemma join_members (l : list (string * string)) :
  join ", " ((λ kv, encode_basestring_ascii kv.1 +:+ ": "
                     +:+ encode_basestring_ascii kv.2) <$> l)
  = json_members l.
Proof.
  induction l as [|[k v] l IH]; [done|].
  destruct l as [|kv l]; [done|].
  cbn [fmap list_fmap join json_members fst snd] in *. by rewrite IH.
Qed.

Lemma json_dumps_text (d : gmap string string) :
  ∃ l, l ≡ₚ map_to_list d
       ∧ json_dumps (DataDict d) = json_object_text l.
Proof.
  exists (iteritems d). split; [apply iteritems_entries|].
  unfold json_dumps, json_object_text. by rewrite join_members.
Qed.

(** The text for two entries: both members, in one order or the other. *)
Lemma json_dumps_two (k1 v1 k2 v2 : string) :
  k1 ≠ k2 →
  json_dumps (DataDict (<[k1 := v1]> {[k2 := v2]}))
  = json_object_text [(k1, v1); (k2, v2)]
  ∨ json_dumps (DataDict (<[k1 := v1]> {[k2 := v2]}))
    = json_object_text [(k2, v2); (k1, v1)].
Proof.
  intros Hne.
  destruct (json_dumps_text (<[k1 := v1]> {[k2 := v2]})) as (l & Hperm & ->).
  rewrite map_to_list_insert, map_to_list_singleton in Hperm
    by by rewrite lookup_singleton_ne.
  symmetry in Hperm. apply Permutation_length_2_inv in Hperm as [->| ->]; auto.
Qed.


Lemma content_type_contains (args : Namespace.t) (stdin_isatty : bool)
    (headers : CaseInsensitiveDict.t) (data : data_t) :
  CaseInsensitiveDict.__contains__ headers "Content-Type" = true →
  content_type args stdin_isatty headers data
  = (headers,
     if Namespace.json args || (negb (Namespace.form args) && truthy data)
     then if stdin_isatty then DataStr (json_dumps data) else data
     else data).
Proof.
  intros Hin. unfold content_type. rewrite Hin. simpl.
  by destruct (Namespace.json args || _).
Qed.


Lemma contains_headers_of (items : list KeyValue) :
  CaseInsensitiveDict.__contains__ (headers_of items (seed version)) "Content-Type"
  = bool_decide (is_Some (supplied "Content-Type" items)).
Proof.
  unfold CaseInsensitiveDict.__contains__. apply bool_decide_ext.
  rewrite getitem_headers_of.
  destruct (supplied "Content-Type" items); [done|].
  split; intros [? ?]; done.
Qed.


End Assembly.

(** ** The specification *)

Section Claims.

Context `{ArgumentParser} `{JSONEncoder} `{DictOrder} `{Transport}
  `{Formatter} `{Codecs}.
Variable version : string.


(** C3. When the standard input is not a terminal and one of the items
    has the separator of the data, the program reports the usage error
    that forbids mixing the two sources of the body and exits with status
    2; nothing else happens, and the engine is not called. *)
Theorem mixed_body_sources_rejected (argv : list string)
    (args : Namespace.t) (stdin : string) (stdout_isatty : bool)
    (item : KeyValue) :
  parse_args argv = inl args →
  item ∈ Namespace.items args →
  sep item = SEP_DATA →
  main version argv stdin false stdout_isatty []
    = (Raise (SystemExit 2), [ParserError MIXED])
  ∧ sent (main version argv stdin false stdout_isatty []).2 = []
  ∧ transport_calls (main version argv stdin false stdout_isatty []).2 = 0%nat.
Proof.
  intros Hparse Hin Hsep.
  assert (main version argv stdin false stdout_isatty []
          = (Raise (SystemExit 2), [ParserError MIXED])) as ->; [|done].
  unfold main, bind at 1. rewrite Hparse. unfold ret at 1, bind at 1.
  rewrite (assemble_mixed version args stdin item); [done|done|].
  by rewrite Hsep.
Qed.

(** C4. When a header item is named [Content-Type], in whatever case, and
    the loop over the items runs to its end, the engine is called once
    and the header [Content-Type] of the request is the value of the last
    such item. *)
Theorem supplied_content_type_kept (argv : list string) (args : Namespace.t)
    (stdin : string) (stdin_isatty stdout_isatty : bool) (v : string) :
  parse_args argv = inl args →
  reaches_assembly args stdin_isatty →
  supplied "Content-Type" (Namespace.items args) = Some v →
  ∃ request,
    sent (main version argv stdin stdin_isatty stdout_isatty []).2 = [request]
    ∧ CaseInsensitiveDict.__getitem__ (Request.headers request)
        "Content-Type" = Some v.
Proof.
  intros Hparse Hok Hsome.
  pose proof (assemble_reaches version args stdin stdin_isatty [] Hok)
    as Hassemble.
  rewrite content_type_contains in Hassemble.
  2: { rewrite contains_headers_of, Hsome. by apply bool_decide_eq_true_2. }
  eexists. split; [by eapply main_sent|]. simpl.
  by rewrite getitem_headers_of, Hsome.
Qed.



(** C7 (amended). When the headers already have a [Content-Type] at the
    content negotiation, the headers are left as they are, and the body is
    still chosen as without it: with [--json], or without [--form] and
    with data, the data is replaced by its JSON text when the standard
    input is a terminal; in the other cases the data is left as it is. *)
Theorem content_type_present (args : Namespace.t) (stdin_isatty : bool)
    (headers : CaseInsensitiveDict.t) (data : data_t) :
  CaseInsensitiveDict.__contains__ headers "Content-Type" = true →
  content_type args stdin_isatty headers data
  = (headers,
     if Namespace.json args || (negb (Namespace.form args) && truthy data)
     then if stdin_isatty then DataStr (json_dumps data) else data
     else data).
Proof. apply content_type_contains. Qed.

(** C9. When the loop over the items runs to its end, the engine is
    called once and the headers of the request have one entry whose key is
    [User-Agent] in whatever case: its value, which is also what the lookup
    of [User-Agent] gives, is the value of the last header item of that
    name, and the text [HTTPie/] followed by the version when there is
    none. *)
Theorem one_user_agent (argv : list string) (args : Namespace.t)
    (stdin : string) (stdin_isatty stdout_isatty : bool) :
  parse_args argv = inl args →
  reaches_assembly args stdin_isatty →
  ∃ request k,
    sent (main version argv stdin stdin_isatty stdout_isatty []).2 = [request]
    ∧ lower k = "user-agent"
    ∧ CaseInsensitiveDict.entries (Request.headers request) "User-Agent"
      = [(k, default ("HTTPie/" +:+ version)
               (supplied "User-Agent" (Namespace.items args)))]
    ∧ CaseInsensitiveDict.__getitem__ (Request.headers request) "User-Agent"
      = Some (default ("HTTPie/" +:+ version)
                (supplied "User-Agent" (Namespace.items args))).
Proof.
  intros Hparse Hok.
  pose proof (assemble_reaches version args stdin stdin_isatty [] Hok)
    as Hassemble.
  destruct (content_type _ _ _ _) as [headers data] eqn:Hct.
  exists (request_of args headers data), "User-Agent".
  split; [by eapply main_sent|]. split; [done|].
  cbn [Request.headers request_of].
  assert (CaseInsensitiveDict.entries headers "User-Agent"
          = [("User-Agent",
              default ("HTTPie/" +:+ version)
                (supplied "User-Agent" (Namespace.items args)))]) as Hentries.
  { pose proof (entries_headers_of (Namespace.items args) (seed version)
                  "User-Agent" "User-Agent" ("HTTPie/" +:+ version) eq_refl)
      as Hentries.
    unfold content_type in Hct.
    repeat match type of Hct with
           | (if ?c then _ else _) = _ => destruct c
           | (let _ := _ in _) = _ => cbv zeta in Hct
           end;
      injection Hct as <- <-;
      by rewrite ?CaseInsensitiveDictFacts.entries_setitem_ne. }
  split; [done|].
  by rewrite CaseInsensitiveDictFacts.getitem_entries, Hentries.
Qed.

End Claims.

(** ** Runs of the program *)

Section Runs.

#[local] Existing Instance cli_parser.
#[local] Existing Instance quote_encoder.
#[local] Existing Instance gmap_order.
#[local] Existing Instance json_transport.
#[local] Existing Instance plain_formatter.
#[local] Existing Instance plain_codecs.


Lemma mixed_body_sources_rejected_witness :
  let argv := ["POST"; "example.org"; "name=joe"] in
  main "0.1" argv "piped" false true []
    = (Raise (SystemExit 2), [ParserError MIXED])
  ∧ sent (main "0.1" argv "piped" false true []).2 = []
  ∧ transport_calls (main "0.1" argv "piped" false true []).2 = 0%nat.
Proof.
  apply (mixed_body_sources_rejected "0.1"
           ["POST"; "example.org"; "name=joe"]
           (defaults false false PRETTIFY_STDOUT_TTY_ONLY "POST" "example.org"
              [joe])
           "piped" true joe).
  - reflexivity.
  - apply list_elem_of_here.
  - reflexivity.
Defined.

Lemma supplied_content_type_kept_witness :
  let argv := ["POST"; "example.org"; "content-type:text/plain"; "name=joe"] in
  ∃ request,
    sent (main "0.1" argv "" true true []).2 = [request]
    ∧ CaseInsensitiveDict.__getitem__ (Request.headers request) "Content-Type"
      = Some "text/plain".
Proof.
  apply (supplied_content_type_kept "0.1"
           ["POST"; "example.org"; "content-type:text/plain"; "name=joe"]
           (defaults false false PRETTIFY_STDOUT_TTY_ONLY "POST" "example.org"
              [plain; joe])
           "" true true "text/plain").
  - reflexivity.
  - left. reflexivity.
  - reflexivity.
Defined.




Lemma content_type_present_witness :
  let args :=
    defaults false false PRETTIFY_STDOUT_TTY_ONLY "POST" "example.org"
      [plain; joe] in
  let headers := [("User-Agent", "HTTPie/0.1"); ("content-type", "text/plain")] in
  content_type args true headers (DataDict {["name" := "joe"]})
  = (headers, DataStr (json_dumps (DataDict {["name" := "joe"]}))).
Proof.
  exact (content_type_present
           (defaults false false PRETTIFY_STDOUT_TTY_ONLY "POST" "example.org"
              [plain; joe])
           true
           [("User-Agent", "HTTPie/0.1"); ("content-type", "text/plain")]
           (DataDict {["name" := "joe"]})
           eq_refl).
Defined.

(** C7, as it is stated, fails: with a [Content-Type] among the header
    items the header is kept, and the data items are still replaced by
    their JSON text. *)
Lemma content_type_present_counterexample :
  let argv := ["POST"; "example.org"; "Content-Type:text/plain"; "a=b"] in
  ∃ request,
    sent (main "0.1" argv "" true true []).2 = [request]
    ∧ Request.headers request
      = [("User-Agent", "HTTPie/0.1"); ("Content-Type", "text/plain")]
    ∧ Request.data request
      = DataStr ("{" +:+ dquote +:+ "a" +:+ dquote +:+ ": "
                     +:+ dquote +:+ "b" +:+ dquote +:+ "}")
    ∧ Request.data request ≠ DataDict {["a" := "b"]}.
Proof. eexists. split; [vm_compute; reflexivity|]. simpl. by repeat split. Qed.

Lemma one_user_agent_witness :
  (∃ request k,
     sent (main "0.1" ["GET"; "example.org"] "" true true []).2 = [request]
     ∧ lower k = "user-agent"
     ∧ CaseInsensitiveDict.entries (Request.headers request) "User-Agent"
       = [(k, "HTTPie/0.1")]
     ∧ CaseInsensitiveDict.__getitem__ (Request.headers request) "User-Agent"
       = Some "HTTPie/0.1")
  ∧ (∃ request k,
       sent (main "0.1" ["GET"; "example.org"; "user-agent:me"; "USER-AGENT:you"]
               "" true true []).2 = [request]
       ∧ lower k = "user-agent"
       ∧ CaseInsensitiveDict.entries (Request.headers request) "User-Agent"
         = [(k, "you")]
       ∧ CaseInsensitiveDict.__getitem__ (Request.headers request) "User-Agent"
         = Some "you").
Proof.
  split.
  - apply (one_user_agent "0.1" ["GET"; "example.org"]
             (defaults false false PRETTIFY_STDOUT_TTY_ONLY "GET" "example.org"
                [])
             "" true true).
    + reflexivity.
    + left. reflexivity.
  - apply (one_user_agent "0.1"
             ["GET"; "example.org"; "user-agent:me"; "USER-AGENT:you"]
             (defaults false false PRETTIFY_STDOUT_TTY_ONLY "GET" "example.org"
                [agent; mkKeyValue "USER-AGENT" "you" ":"])
             "" true true).
    + reflexivity.
    + left. reflexivity.
Defined.

End Runs.

(** * Further properties *)

(** ** The item classifier *)

Lemma separator_dichotomy (cs : list ascii) (s : string) :
  has_separator cs s ∨ no_separator cs s.
Proof.
  induction s as [|a s [(q & c & Hq & Hc)|Hno]].
  - right. by intros [|q] c.
  - left. by exists (S q), c.
  - destruct (decide (a ∈ cs)) as [Ha|Ha].
    + left. by exists 0%nat, a.
    + right. intros [|q] c; simpl; [by intros [= <-]|apply Hno].
Qed.

Lemma append_cons (a : ascii) (s t : string) :
  String a s +:+ t = String a (s +:+ t).
Proof. reflexivity. Qed.

Lemma substring_app_l (k r : string) :
  String.substring 0 (String.length k) (k +:+ r) = k.
Proof.
  induction k as [|a k IH]; [by destruct r|].
  rewrite append_cons. simpl. by rewrite IH.
Qed.

Lemma slice_from_app (k : string) (c : ascii) (v : string) :
  slice_from (S (String.length k)) (k +:+ String c v) = v.
Proof.
  induction k as [|a k IH].
  - change ("" +:+ String c v) with (String c v). rewrite slice_from_S.
    unfold slice_from. by rewrite Nat.sub_0_r, substring_all.
  - rewrite append_cons. simpl String.length. by rewrite slice_from_S.
Qed.

Lemma earliest_app (cs : list ascii) (k : string) (c : ascii) (v : string) :
  no_separator cs k → c ∈ cs →
  earliest cs (k +:+ chr c +:+ v) (String.length k) c.
Proof.
  intros Hno Hc. induction k as [|a k IH].
  - split; [done|]. split; [done|]. simpl. lia.
  - destruct IH as (Hp & _ & Hfirst).
    { intros q c'. apply (Hno (S q) c'). }
    rewrite append_cons. split; [done|]. split; [done|].
    intros [|q] c' Hlt; simpl.
    + intros [= <-]. by apply (Hno 0%nat a).
    + apply Hfirst. simpl in Hlt. lia.
Qed.

(** X1. Splitting undoes joining: for a key that holds no candidate
    separator, a candidate separator [c] and any value, the classifier
    applied to the key, [c] and the value put together returns that key,
    that value and [c]. *)
Theorem classifier_round_trip (cs : list ascii) (k : string) (c : ascii)
    (v : string) :
  no_separator cs k → c ∈ cs →
  KeyValueType.__call__ (classifier cs) (k +:+ chr c +:+ v)
  = Return (mkKeyValue k v (chr c)).
Proof.
  intros Hno Hc. rewrite (call_earliest cs _ (String.length k) c).
  - change (chr c +:+ v) with (String c v).
    by rewrite substring_app_l, slice_from_app.
  - by apply earliest_app.
Qed.

Lemma classifier_round_trip_witness :
  KeyValueType.__call__ (classifier [":"%char]) ("user" +:+ ":" +:+ "pa:ss=1")
  = Return (mkKeyValue "user" "pa:ss=1" ":").
Proof.
  apply (classifier_round_trip [":"%char] "user" ":"%char "pa:ss=1").
  - intros q c' Hq Hin. apply list_elem_of_singleton in Hin as ->.
    do 4 (destruct q as [|q]; [discriminate|]). discriminate.
  - apply list_elem_of_here.
Defined.

(** X2. In every token that the classifier returns, the separator is one of
    the candidates and the key holds no candidate separator. *)
Theorem token_key_has_no_separator (cs : list ascii) (s : string)
    (token : KeyValue) :
  KeyValueType.__call__ (classifier cs) s = Return token →
  no_separator cs (key token) ∧ ∃ c, c ∈ cs ∧ sep token = chr c.
Proof.
  intros Hcall. destruct (separator_dichotomy cs s) as [Hsome|Hno].
  - apply earliest_exists in Hsome as (p & c & Hearly).
    rewrite (call_earliest cs s p c Hearly) in Hcall. injection Hcall as <-.
    destruct Hearly as (Hp & Hc & Hfirst). simpl. split; [|by exists c].
    intros q c' Hq. destruct (decide (q < p)%nat) as [Hlt|Hge].
    + rewrite String.substring_correct1, Nat.add_0_r in Hq by done.
      by apply (Hfirst q).
    + rewrite String.substring_correct2 in Hq by lia. done.
  - rewrite call_no_separator in Hcall by done. done.
Qed.

Lemma token_key_has_no_separator_witness :
  no_separator [":"%char; "="%char] "a"
  ∧ ∃ c, c ∈ [":"%char; "="%char] ∧ ":" = chr c.
Proof.
  exact (token_key_has_no_separator [":"%char; "="%char] "a:b=c"
           (mkKeyValue "a" "b=c" ":") eq_refl).
Defined.

(** X3. The result of the classifier depends on which characters are
    candidate separators, not on their order in the list nor on their
    repetitions. *)
Theorem separators_order_irrelevant (cs cs' : list ascii) (s : string) :
  (∀ c, c ∈ cs ↔ c ∈ cs') →
  KeyValueType.__call__ (classifier cs) s
  = KeyValueType.__call__ (classifier cs') s.
Proof.
  intros Hsame. destruct (separator_dichotomy cs s) as [Hsome|Hno].
  - apply earliest_exists in Hsome as (p & c & Hp & Hc & Hfirst).
    rewrite (call_earliest cs s p c), (call_earliest cs' s p c); [done|..].
    + split; [done|]. split; [by apply Hsame|].
      intros q c' Hlt Hq Hin. by apply (Hfirst q c' Hlt Hq), Hsame.
    + done.
  - rewrite !call_no_separator; [done| |done].
    intros q c Hq Hin. by apply (Hno q c Hq), Hsame.
Qed.

Lemma separators_order_irrelevant_witness :
  KeyValueType.__call__ (classifier [":"%char; "="%char]) "a=b:c"
  = KeyValueType.__call__ (classifier ["="%char; ":"%char; "="%char]) "a=b:c".
Proof.
  apply (separators_order_irrelevant [":"%char; "="%char]
           ["="%char; ":"%char; "="%char] "a=b:c").
  intros c. rewrite !elem_of_cons, !elem_of_nil. tauto.
Defined.

(** ** Dictionaries built in a loop *)

(** A dictionary filled by a loop of assignments holds, under each key, the
    value of the last element of the loop that assigns to that key. *)
Lemma foldl_lookup_last {A V : Type} (step : gmap string V → A → gmap string V)
    (P : A → string → Prop) {Pdec : ∀ x k, Decision (P x k)} (vf : A → V) :
  (∀ d x k, step d x !! k = if decide (P x k) then Some (vf x) else d !! k) →
  ∀ l d k,
    foldl step d l !! k
    = match last (filter (λ x, P x k) l) with
      | Some x => Some (vf x)
      | None => d !! k
      end.
Proof.
  intros Hstep l. induction l as [|a l IH]; intros d k; [done|].
  cbn [foldl]. rewrite IH, filter_cons.
  destruct (decide (P a k)) as [Ha|Ha].
  - rewrite last_cons. destruct (last _); [done|].
    by rewrite Hstep, decide_True.
  - destruct (last _); [done|]. by rewrite Hstep, decide_False.
Qed.

Lemma data_of_lookup (items : list KeyValue) (data : gmap string string)
    (k : string) :
  data_of items data !! k
  = match last (data_named k items) with
    | Some item => Some (value item)
    | None => data !! k
    end.
Proof.
  unfold data_of, data_named.
  refine (foldl_lookup_last
            (λ d item, if decide (sep item = SEP_COMMON) then d
                       else <[key item := value item]> d)
            (λ item k, sep item ≠ SEP_COMMON ∧ key item = k) value
            _ items data k).
  intros d item k'. destruct (decide (sep item = SEP_COMMON)) as [Hsep|Hsep].
  - by rewrite decide_False by tauto.
  - destruct (decide (key item = k')) as [<-|Hne].
    + by rewrite decide_True, lookup_insert_eq.
    + by rewrite decide_False, lookup_insert_ne by tauto.
Qed.

(** X15. The dictionaries of the files and of the proxies of the request
    hold, under each name, the last [--file] with that base name and the URL
    of the last [--proxy] for that protocol: an earlier one of the same name
    is dropped. *)
Theorem last_file_and_proxy_win (args : Namespace.t)
    (headers : CaseInsensitiveDict.t) (data : data_t) (name : string) :
  Request.files (request_of args headers data) !! name
  = last (filter (λ f, basename (file_name f) = name) (Namespace.file args))
  ∧ Request.proxies (request_of args headers data) !! name
    = value <$> last (filter (λ p, key p = name) (Namespace.proxy args)).
Proof.
  split; simpl.
  - rewrite (foldl_lookup_last
               (λ d f, <[basename (file_name f) := f]> d)
               (λ f k, basename (file_name f) = k)
               (Pdec := λ f k, decide (basename (file_name f) = k)) id).
    + by destruct (last _).
    + intros d f k. destruct (decide (basename (file_name f) = k)) as [<-|Hne].
      * by rewrite lookup_insert_eq.
      * by rewrite lookup_insert_ne.
  - rewrite (foldl_lookup_last
               (λ d p, <[key p := value p]> d) (λ p k, key p = k)
               (Pdec := λ p k, decide (key p = k)) value).
    + by destruct (last _).
    + intros d p' k. destruct (decide (key p' = k)) as [<-|Hne].
      * by rewrite lookup_insert_eq.
      * by rewrite lookup_insert_ne.
Qed.

(** ** The rendering of the response *)


Lemma stderr_writes_app (tr tr' : list event) :
  stderr_writes (tr ++ tr') = (stderr_writes tr ++ stderr_writes tr')%list.
Proof. apply omap_app. Qed.




Section Rendering.

Context {formatter : Formatter} {codecs : Codecs}.





End Rendering.

(** ** Content negotiation, further *)

Lemma getitem_lower (d : CaseInsensitiveDict.t) (k k' : string) :
  lower k = lower k' →
  CaseInsensitiveDict.__getitem__ d k = CaseInsensitiveDict.__getitem__ d k'.
Proof.
  intros Heq. induction d as [|[k0 v0] d IH]; simpl; [done|].
  by rewrite Heq, IH.
Qed.

Lemma contains_setitem (d : CaseInsensitiveDict.t) (k v : string) :
  CaseInsensitiveDict.__contains__ (CaseInsensitiveDict.__setitem__ d k v) k
  = true.
Proof.
  apply CaseInsensitiveDictFacts.contains_true.
  rewrite CaseInsensitiveDictFacts.getitem_setitem, decide_True by done. eauto.
Qed.

Section Negotiation.

Context {encoder : JSONEncoder} {order : DictOrder}.

(** The negotiation leaves the headers with a [Content-Type], when the data
    is a dictionary whenever the standard input is a terminal. *)
Lemma content_type_sets (args : Namespace.t) (stdin_isatty : bool)
    (headers : CaseInsensitiveDict.t) (data : data_t) :
  (stdin_isatty = true → ∃ d, data = DataDict d) →
  CaseInsensitiveDict.__contains__
    (content_type args stdin_isatty headers data).1 "Content-Type" = true.
Proof.
  intros Hdict.
  destruct (CaseInsensitiveDict.__contains__ headers "Content-Type") eqn:Hin.
  - by rewrite content_type_contains.
  - unfold content_type. rewrite Hin. cbn [negb andb].
    destruct (Namespace.json args || negb (Namespace.form args) && truthy data)
      eqn:Hcond; [|apply contains_setitem].
    assert (truthy (if stdin_isatty then DataStr (json_dumps data) else data)
            || Namespace.json args = true) as ->; [|apply contains_setitem].
    destruct stdin_isatty.
    + destruct Hdict as [d ->]; [done|]. cbn [truthy].
      by rewrite (bool_decide_eq_true_2 _ (json_dumps_not_empty d)).
    + destruct (Namespace.json args), (Namespace.form args), (truthy data); done.
Qed.

(** A piped body is not changed by the negotiation. *)
Lemma content_type_piped (args : Namespace.t)
    (headers : CaseInsensitiveDict.t) (data : data_t) :
  (content_type args false headers data).2 = data.
Proof.
  unfold content_type.
  repeat match goal with |- context [if ?c then _ else _] => destruct c end; done.
Qed.

(** With [--form] and without [--json], the data is not changed. *)
Lemma content_type_form (args : Namespace.t) (stdin_isatty : bool)
    (headers : CaseInsensitiveDict.t) (data : data_t) :
  Namespace.json args = false → Namespace.form args = true →
  (content_type args stdin_isatty headers data).2 = data.
Proof.
  intros Hjson Hform. unfold content_type. rewrite Hjson, Hform. simpl.
  by destruct (negb _).
Qed.

(** The negotiation keeps the headers that are there. *)
Lemma content_type_keeps (args : Namespace.t) (stdin_isatty : bool)
    (headers : CaseInsensitiveDict.t) (data : data_t) (name v : string) :
  CaseInsensitiveDict.__getitem__ headers name = Some v →
  CaseInsensitiveDict.__getitem__
    (content_type args stdin_isatty headers data).1 name = Some v.
Proof.
  intros Hv.
  destruct (CaseInsensitiveDict.__contains__ headers "Content-Type") eqn:Hin.
  - by rewrite content_type_contains.
  - apply CaseInsensitiveDictFacts.contains_false in Hin.
    assert (lower "Content-Type" ≠ lower name) as Hne.
    { intros Heq. rewrite (getitem_lower _ _ _ Heq) in Hin. congruence. }
    unfold content_type.
    repeat match goal with |- context [if ?c then _ else _] => destruct c end;
      simpl; rewrite ?CaseInsensitiveDictFacts.getitem_setitem,
               ?decide_False by done; done.
Qed.

(** The [Content-Type] that the negotiation gives to a piped body, when the
    headers have none. *)
Lemma content_type_piped_header (args : Namespace.t)
    (headers : CaseInsensitiveDict.t) (stdin : string) :
  CaseInsensitiveDict.__contains__ headers "Content-Type" = false →
  CaseInsensitiveDict.__getitem__
    (content_type args false headers (DataStr stdin)).1 "Content-Type"
  = Some (if Namespace.json args
             || (negb (Namespace.form args) && bool_decide (stdin ≠ ""))
          then TYPE_JSON else TYPE_FORM).
Proof.
  intros Hin. unfold content_type. rewrite Hin. cbn [negb andb truthy].
  destruct (Namespace.json args || _) eqn:Hcond.
  - assert (bool_decide (stdin ≠ "") || Namespace.json args = true) as ->.
    { destruct (Namespace.json args), (Namespace.form args),
        (bool_decide (stdin ≠ "")); done. }
    simpl. by rewrite CaseInsensitiveDictFacts.getitem_setitem, decide_True.
  - simpl. by rewrite CaseInsensitiveDictFacts.getitem_setitem, decide_True.
Qed.

End Negotiation.

(** ** Runs of [main] *)

Lemma reaches_or_mixed (args : Namespace.t) (stdin_isatty : bool) :
  reaches_assembly args stdin_isatty
  ∨ (stdin_isatty = false
     ∧ ∃ item, item ∈ Namespace.items args ∧ sep item ≠ SEP_COMMON).
Proof.
  destruct stdin_isatty; [by left; left|].
  destruct (decide (Forall (λ item, sep item = SEP_COMMON) (Namespace.items args)))
    as [Hall|Hsome].
  - left. right. by apply Forall_forall.
  - right. split; [done|].
    apply not_Forall_Exists, Exists_exists in Hsome; [done|apply _].
Qed.


Section MainRuns.

Context {parser : ArgumentParser} {encoder : JSONEncoder} {order : DictOrder}
  {transport : Transport} {formatter : Formatter} {codecs : Codecs}.
Variable version : string.

(** The run of [main] after the assembly. *)
Lemma main_run (argv : list string) (args : Namespace.t) (stdin : string)
    (stdin_isatty stdout_isatty : bool)
    (headers : CaseInsensitiveDict.t) (data : data_t) :
  parse_args argv = inl args →
  assemble version args stdin stdin_isatty [] = (Return (headers, data), []) →
  main version argv stdin stdin_isatty stdout_isatty []
  = let request := request_of args headers data in
    match requests_request request with
    | Responds response =>
        display args (do_prettify args stdout_isatty) response
          [RequestsRequest request]
    | Interrupted =>
        (Raise (SystemExit 1), [RequestsRequest request; StderrWrite newline])
    | Fails message =>
        if Namespace.traceback args
        then (Raise (TransportError message), [RequestsRequest request])
        else (Raise (SystemExit 1),
              [RequestsRequest request; StderrWrite (message +:+ newline)])
    end.
Proof.
  intros Hparse Hassemble. unfold main, bind at 1. rewrite Hparse.
  unfold ret at 1. unfold bind at 1. rewrite Hassemble.
  unfold bind at 1, fire, bind at 1, emit. simpl.
  destruct (requests_request (request_of args headers data)) as [response| |message].
  - done.
  - by run.
  - destruct (Namespace.traceback args); by run.
Qed.

Lemma main_parse_error (argv : list string) (message : string) (stdin : string)
    (stdin_isatty stdout_isatty : bool) :
  parse_args argv = inr message →
  main version argv stdin stdin_isatty stdout_isatty []
  = (Raise (SystemExit 2), [ParserError message]).
Proof. intros Hparse. unfold main, bind at 1. rewrite Hparse. by run. Qed.

Lemma main_mixed (argv : list string) (args : Namespace.t) (stdin : string)
    (stdout_isatty : bool) (item : KeyValue) :
  parse_args argv = inl args →
  item ∈ Namespace.items args → sep item ≠ SEP_COMMON →
  main version argv stdin false stdout_isatty []
  = (Raise (SystemExit 2), [ParserError MIXED]).
Proof.
  intros Hparse Hin Hsep. unfold main, bind at 1. rewrite Hparse.
  unfold ret at 1, bind at 1.
  by rewrite (assemble_mixed version args stdin item).
Qed.

(** X5. In every run the engine is called at most once. *)
Theorem engine_called_at_most_once (argv : list string) (stdin : string)
    (stdin_isatty stdout_isatty : bool) :
  (List.length (sent (main version argv stdin stdin_isatty stdout_isatty []).2)
   ≤ 1)%nat.
Proof.
  destruct (parse_args argv) as [args|message] eqn:Hparse.
  - destruct (reaches_or_mixed args stdin_isatty)
      as [Hok|(-> & item & Hin & Hsep)].
    + pose proof (assemble_reaches version args stdin stdin_isatty [] Hok)
        as Hassemble.
      destruct (content_type _ _ _ _) as [headers data].
      by rewrite (main_sent version argv args stdin stdin_isatty stdout_isatty
                    headers data).
    + rewrite (main_mixed argv args stdin stdout_isatty item) by done.
      simpl. lia.
  - rewrite main_parse_error with (message := message) by done. simpl. lia.
Qed.

(** X8. When the engine raises an exception and [--traceback] is not set,
    [main] writes the message of the exception and a newline to the
    standard error and exits with status 1; nothing is written to the
    standard output and the formatter is not called. *)
Theorem engine_failure_reported (argv : list string) (args : Namespace.t)
    (stdin : string) (stdin_isatty stdout_isatty : bool)
    (headers : CaseInsensitiveDict.t) (data : data_t) (message : string) :
  parse_args argv = inl args →
  assemble version args stdin stdin_isatty [] = (Return (headers, data), []) →
  requests_request (request_of args headers data) = Fails message →
  Namespace.traceback args = false →
  let run := main version argv stdin stdin_isatty stdout_isatty [] in
  run.1 = Raise (SystemExit 1)
  ∧ stderr_writes run.2 = [message +:+ newline]
  ∧ stdout_writes run.2 = []
  ∧ formatter_calls run.2 = [].
Proof.
  intros Hparse Hassemble Hfails Htb. cbv zeta.
  rewrite (main_run argv args stdin stdin_isatty stdout_isatty headers data)
    by done.
  cbv zeta. by rewrite Hfails, Htb.
Qed.

(** X9. When the engine raises an exception and [--traceback] is set, the
    exception leaves [main]: nothing is written to the standard error nor to
    the standard output. *)
Theorem engine_failure_traceback (argv : list string) (args : Namespace.t)
    (stdin : string) (stdin_isatty stdout_isatty : bool)
    (headers : CaseInsensitiveDict.t) (data : data_t) (message : string) :
  parse_args argv = inl args →
  assemble version args stdin stdin_isatty [] = (Return (headers, data), []) →
  requests_request (request_of args headers data) = Fails message →
  Namespace.traceback args = true →
  let run := main version argv stdin stdin_isatty stdout_isatty [] in
  run.1 = Raise (TransportError message)
  ∧ stderr_writes run.2 = []
  ∧ stdout_writes run.2 = [].
Proof.
  intros Hparse Hassemble Hfails Htb. cbv zeta.
  rewrite (main_run argv args stdin stdin_isatty stdout_isatty headers data)
    by done.
  cbv zeta. by rewrite Hfails, Htb.
Qed.

(** X10. When the call of the engine is interrupted, [main] writes a newline
    alone to the standard error and exits with status 1, with or without
    [--traceback]; nothing is written to the standard output. *)
Theorem engine_interrupted (argv : list string) (args : Namespace.t)
    (stdin : string) (stdin_isatty stdout_isatty : bool)
    (headers : CaseInsensitiveDict.t) (data : data_t) :
  parse_args argv = inl args →
  assemble version args stdin stdin_isatty [] = (Return (headers, data), []) →
  requests_request (request_of args headers data) = Interrupted →
  let run := main version argv stdin stdin_isatty stdout_isatty [] in
  run.1 = Raise (SystemExit 1)
  ∧ stderr_writes run.2 = [newline]
  ∧ stdout_writes run.2 = [].
Proof.
  intros Hparse Hassemble Hint. cbv zeta.
  rewrite (main_run argv args stdin stdin_isatty stdout_isatty headers data)
    by done.
  cbv zeta. by rewrite Hint.
Qed.

End MainRuns.

(** ** The request that is sent *)


Section Requests.

Context {parser : ArgumentParser} {encoder : JSONEncoder} {order : DictOrder}
  {transport : Transport} {formatter : Formatter} {codecs : Codecs}.
Variable version : string.

(** X6. Every request that is sent has a [Content-Type] header. *)
Theorem request_has_content_type (argv : list string) (args : Namespace.t)
    (stdin : string) (stdin_isatty stdout_isatty : bool) :
  parse_args argv = inl args →
  reaches_assembly args stdin_isatty →
  ∃ request,
    sent (main version argv stdin stdin_isatty stdout_isatty []).2 = [request]
    ∧ CaseInsensitiveDict.__contains__ (Request.headers request)
        "Content-Type" = true.
Proof.
  intros Hparse Hok.
  pose proof (assemble_reaches version args stdin stdin_isatty [] Hok)
    as Hassemble.
  pose proof (content_type_sets args stdin_isatty
                (headers_of (Namespace.items args) (seed version))
                (if negb stdin_isatty then DataStr stdin
                 else DataDict (data_of (Namespace.items args) ∅))) as Hct.
  destruct (content_type _ _ _ _) as [headers data].
  exists (request_of args headers data). split; [by eapply main_sent|].
  apply Hct. intros ->. by eexists.
Qed.

(** X7. A piped body is sent as it is, whatever the options: when the
    standard input is not a terminal and every item is a header item, the
    body of the request is the text read from the standard input; its
    [Content-Type] is the one of the header items when there is one, and
    otherwise [TYPE_JSON] with [--json], or without [--form] when the text is
    not empty, and [TYPE_FORM] in the other cases. *)
Theorem piped_body_verbatim (argv : list string) (args : Namespace.t)
    (stdin : string) (stdout_isatty : bool) :
  parse_args argv = inl args →
  (∀ item, item ∈ Namespace.items args → sep item = SEP_COMMON) →
  ∃ request,
    sent (main version argv stdin false stdout_isatty []).2 = [request]
    ∧ Request.data request = DataStr stdin
    ∧ CaseInsensitiveDict.__getitem__ (Request.headers request) "Content-Type"
      = Some (match supplied "Content-Type" (Namespace.items args) with
              | Some v => v
              | None =>
                  if Namespace.json args
                     || (negb (Namespace.form args) && bool_decide (stdin ≠ ""))
                  then TYPE_JSON else TYPE_FORM
              end).
Proof.
  intros Hparse Hall.
  pose proof (assemble_reaches version args stdin false [] (or_intror Hall))
    as Hassemble.
  cbn [negb] in Hassemble.
  pose proof (content_type_piped args
                (headers_of (Namespace.items args) (seed version))
                (DataStr stdin)) as Hdata.
  destruct (supplied "Content-Type" (Namespace.items args)) as [v|] eqn:Hsup.
  - pose proof (content_type_keeps args false
                  (headers_of (Namespace.items args) (seed version))
                  (DataStr stdin) "Content-Type" v) as Hkeep.
    destruct (content_type _ _ _ _) as [headers data].
    exists (request_of args headers data). split; [by eapply main_sent|].
    split; [done|]. apply Hkeep. by rewrite getitem_headers_of, Hsup.
  - pose proof (content_type_piped_header args
                  (headers_of (Namespace.items args) (seed version)) stdin)
      as Hheader.
    destruct (content_type _ _ _ _) as [headers data].
    exists (request_of args headers data). split; [by eapply main_sent|].
    split; [done|]. apply Hheader.
    by rewrite contains_headers_of, Hsup.
Qed.

(** X17. Every header item reaches the request: when the loop over the
    items runs to its end, the request has, under the name of each header
    item, in whatever case, the value of the last header item of that name;
    the content negotiation does not replace it. *)
Theorem header_items_sent (argv : list string) (args : Namespace.t)
    (stdin : string) (stdin_isatty stdout_isatty : bool) (name v : string) :
  parse_args argv = inl args →
  reaches_assembly args stdin_isatty →
  supplied name (Namespace.items args) = Some v →
  ∃ request,
    sent (main version argv stdin stdin_isatty stdout_isatty []).2 = [request]
    ∧ CaseInsensitiveDict.__getitem__ (Request.headers request) name = Some v.
Proof.
  intros Hparse Hok Hsup.
  pose proof (assemble_reaches version args stdin stdin_isatty [] Hok)
    as Hassemble.
  pose proof (content_type_keeps args stdin_isatty
                (headers_of (Namespace.items args) (seed version))
                (if negb stdin_isatty then DataStr stdin
                 else DataDict (data_of (Namespace.items args) ∅))
                name v) as Hkeep.
  destruct (content_type _ _ _ _) as [headers data].
  exists (request_of args headers data). split; [by eapply main_sent|].
  apply Hkeep. by rewrite getitem_headers_of, Hsup.
Qed.

(** X4. With [--form] and the standard input a terminal, the body of the
    request is a dictionary that holds, under each key, the value of the
    last data item with that key, and nothing under the other keys. *)
Theorem form_body_last_value (argv : list string) (args : Namespace.t)
    (stdin : string) (stdout_isatty : bool) :
  parse_args argv = inl args →
  Namespace.json args = false →
  Namespace.form args = true →
  ∃ request d,
    sent (main version argv stdin true stdout_isatty []).2 = [request]
    ∧ Request.data request = DataDict d
    ∧ ∀ k, d !! k = value <$> last (data_named k (Namespace.items args)).
Proof.
  intros Hparse Hjson Hform.
  pose proof (assemble_reaches version args stdin true [] (or_introl eq_refl))
    as Hassemble.
  cbn [negb] in Hassemble.
  pose proof (content_type_form args true
                (headers_of (Namespace.items args) (seed version))
                (DataDict (data_of (Namespace.items args) ∅)) Hjson Hform)
    as Hdata.
  destruct (content_type _ _ _ _) as [headers data].
  exists (request_of args headers data), (data_of (Namespace.items args) ∅).
  split; [by eapply main_sent|]. split; [done|].
  intros k. rewrite data_of_lookup, lookup_empty. by destruct (last _).
Qed.

End Requests.

(** ** Further runs of the program *)

Section RunsResponding.

#[local] Existing Instance cli_parser.
#[local] Existing Instance quote_encoder.
#[local] Existing Instance gmap_order.
#[local] Existing Instance json_transport.
#[local] Existing Instance plain_formatter.
#[local] Existing Instance plain_codecs.

Lemma request_has_content_type_witness :
  ∃ request,
    sent (main "0.1" ["GET"; "example.org"] "" true true []).2 = [request]
    ∧ CaseInsensitiveDict.__contains__ (Request.headers request)
        "Content-Type" = true.
Proof.
  apply (request_has_content_type "0.1" ["GET"; "example.org"]
           (defaults false false PRETTIFY_STDOUT_TTY_ONLY "GET" "example.org" [])
           "" true true).
  - reflexivity.
  - left. reflexivity.
Defined.

Lemma piped_body_verbatim_witness :
  ∃ request,
    sent (main "0.1" ["--form"; "POST"; "example.org"; "X-Foo:bar"]
            "a=1&b=2" false true []).2 = [request]
    ∧ Request.data request = DataStr "a=1&b=2"
    ∧ CaseInsensitiveDict.__getitem__ (Request.headers request) "Content-Type"
      = Some TYPE_FORM.
Proof.
  apply (piped_body_verbatim "0.1"
           ["--form"; "POST"; "example.org"; "X-Foo:bar"]
           (defaults false true PRETTIFY_STDOUT_TTY_ONLY "POST" "example.org"
              [mkKeyValue "X-Foo" "bar" ":"])
           "a=1&b=2" true).
  - reflexivity.
  - intros item ->%list_elem_of_singleton. reflexivity.
Defined.

Lemma header_items_sent_witness :
  ∃ request,
    sent (main "0.1" ["GET"; "example.org"; "X-Foo:bar"; "x-foo:baz"]
            "" true true []).2 = [request]
    ∧ CaseInsensitiveDict.__getitem__ (Request.headers request) "X-Foo"
      = Some "baz".
Proof.
  apply (header_items_sent "0.1"
           ["GET"; "example.org"; "X-Foo:bar"; "x-foo:baz"]
           (defaults false false PRETTIFY_STDOUT_TTY_ONLY "GET" "example.org"
              [mkKeyValue "X-Foo" "bar" ":"; mkKeyValue "x-foo" "baz" ":"])
           "" true true "X-Foo" "baz").
  - reflexivity.
  - left. reflexivity.
  - reflexivity.
Defined.

Lemma form_body_last_value_witness :
  ∃ request d,
    sent (main "0.1" ["--form"; "POST"; "example.org"; "a=1"; "a=2"]
            "" true true []).2 = [request]
    ∧ Request.data request = DataDict d
    ∧ ∀ k, d !! k
           = value <$> last (data_named k [mkKeyValue "a" "1" "=";
                                            mkKeyValue "a" "2" "="]).
Proof.
  apply (form_body_last_value "0.1"
           ["--form"; "POST"; "example.org"; "a=1"; "a=2"]
           (defaults false true PRETTIFY_STDOUT_TTY_ONLY "POST" "example.org"
              [mkKeyValue "a" "1" "="; mkKeyValue "a" "2" "="])
           "" true).
  - reflexivity.
  - reflexivity.
  - reflexivity.
Defined.

End RunsResponding.

Section RunsFailing.

#[local] Existing Instance cli_parser.
#[local] Existing Instance quote_encoder.
#[local] Existing Instance gmap_order.
#[local] Existing Instance failing_transport.
#[local] Existing Instance plain_formatter.
#[local] Existing Instance plain_codecs.

Lemma engine_failure_reported_witness :
  let run := main "0.1" ["GET"; "example.org"] "" true true [] in
  run.1 = Raise (SystemExit 1)
  ∧ stderr_writes run.2 = ["timed out" +:+ newline]
  ∧ stdout_writes run.2 = []
  ∧ formatter_calls run.2 = [].
Proof.
  apply (engine_failure_reported "0.1" ["GET"; "example.org"]
           (defaults false false PRETTIFY_STDOUT_TTY_ONLY "GET" "example.org" [])
           "" true true
           [("User-Agent", "HTTPie/0.1"); ("Content-Type", TYPE_FORM)]
           (DataDict ∅) "timed out").
  - reflexivity.
  - reflexivity.
  - reflexivity.
  - reflexivity.
Defined.

End RunsFailing.

Section RunsTraceback.

#[local] Existing Instance traceback_parser.
#[local] Existing Instance quote_encoder.
#[local] Existing Instance gmap_order.
#[local] Existing Instance failing_transport.
#[local] Existing Instance plain_formatter.
#[local] Existing Instance plain_codecs.

Lemma engine_failure_traceback_witness :
  let run :=
    main "0.1" ["--traceback"; "POST"; "example.org"; "name=joe"] "" true true []
  in
  run.1 = Raise (TransportError "timed out")
  ∧ stderr_writes run.2 = []
  ∧ stdout_writes run.2 = [].
Proof.
  apply (engine_failure_traceback "0.1"
           ["--traceback"; "POST"; "example.org"; "name=joe"]
           traceback_args "" true true
           [("User-Agent", "HTTPie/0.1"); ("Content-Type", TYPE_JSON)]
           (DataStr (json_dumps (DataDict {["name" := "joe"]})))
           "timed out").
  - reflexivity.
  - reflexivity.
  - reflexivity.
  - reflexivity.
Defined.

End RunsTraceback.

Section RunsInterrupted.

#[local] Existing Instance cli_parser.
#[local] Existing Instance quote_encoder.
#[local] Existing Instance gmap_order.
#[local] Existing Instance interrupted_transport.
#[local] Existing Instance plain_formatter.
#[local] Existing Instance plain_codecs.

Lemma engine_interrupted_witness :
  let run := main "0.1" ["GET"; "example.org"] "" true true [] in
  run.1 = Raise (SystemExit 1)
  ∧ stderr_writes run.2 = [newline]
  ∧ stdout_writes run.2 = [].
Proof.
  apply (engine_interrupted "0.1" ["GET"; "example.org"]
           (defaults false false PRETTIFY_STDOUT_TTY_ONLY "GET" "example.org" [])
           "" true true
           [("User-Agent", "HTTPie/0.1"); ("Content-Type", TYPE_FORM)]
           (DataDict ∅)).
  - reflexivity.
  - reflexivity.
  - reflexivity.
Defined.

End RunsInterrupted.

(** ** The order of the items *)

Lemma headers_of_header_items (items : list KeyValue)
    (headers : CaseInsensitiveDict.t) :
  headers_of (filter (λ item, sep item = SEP_COMMON) items) headers
  = headers_of items headers.
Proof.
  revert headers. induction items as [|item items IH]; intros headers; [done|].
  rewrite filter_cons, (headers_of_cons item items).
  destruct (decide (sep item = SEP_COMMON)) as [Hsep|Hsep]; [|done].
  by rewrite headers_of_cons, decide_True, IH.
Qed.

Lemma headers_of_data_items (items : list KeyValue)
    (headers : CaseInsensitiveDict.t) :
  headers_of (filter (λ item, sep item ≠ SEP_COMMON) items) headers = headers.
Proof.
  induction items as [|item items IH]; [done|].
  rewrite filter_cons.
  destruct (decide (sep item ≠ SEP_COMMON)) as [Hsep|Hsep]; [|done].
  by rewrite headers_of_cons, decide_False, IH.
Qed.

Lemma data_of_data_items (items : list KeyValue) (data : gmap string string) :
  data_of (filter (λ item, sep item ≠ SEP_COMMON) items) data
  = data_of items data.
Proof.
  revert data. induction items as [|item items IH]; intros data; [done|].
  rewrite filter_cons, (data_of_cons item items).
  destruct (decide (sep item = SEP_COMMON)) as [Hsep|Hsep].
  - by rewrite decide_False, IH by tauto.
  - by rewrite decide_True, data_of_cons, decide_False, IH.
Qed.

Lemma data_of_header_items (items : list KeyValue) (data : gmap string string) :
  data_of (filter (λ item, sep item = SEP_COMMON) items) data = data.
Proof.
  induction items as [|item items IH]; [done|].
  rewrite filter_cons.
  destruct (decide (sep item = SEP_COMMON)) as [Hsep|Hsep]; [|done].
  by rewrite data_of_cons, decide_True, IH.
Qed.

(** X19. With the standard input a terminal, the loop over the items gives
    the same headers and the same data when the header items are all put
    before the data items, each kind in its own order: only the order of
    the header items among themselves and the one of the data items among
    themselves count. *)
Theorem items_kinds_commute (items : list KeyValue)
    (headers : CaseInsensitiveDict.t) (data : gmap string string)
    (tr : list event) :
  merge_items true
    (filter (λ item, sep item = SEP_COMMON) items
     ++ filter (λ item, sep item ≠ SEP_COMMON) items)
    headers data tr
  = merge_items true items headers data tr.
Proof.
  rewrite !merge_items_reaches by by left.
  unfold headers_of at 1, data_of at 1. rewrite !foldl_app.
  fold (headers_of (filter (λ item, sep item = SEP_COMMON) items) headers).
  fold (data_of (filter (λ item, sep item = SEP_COMMON) items) data).
  rewrite headers_of_header_items, data_of_header_items.
  fold (headers_of (filter (λ item, sep item ≠ SEP_COMMON) items)
          (headers_of items headers)).
  fold (data_of (filter (λ item, sep item ≠ SEP_COMMON) items) data).
  by rewrite headers_of_data_items, data_of_data_items.
Qed.
